(** * PodGo: the feed reconciliation pipeline of [main.go]

    A shallow embedding of the slug generator ([TitleUrl], [GetTitleUrl]),
    the feed fetcher ([LoadFeed]) and the reconciler ([processFeed],
    [createNewPodcast], [updatePodcast], [processEpisodes],
    [createEpisode]), followed by the properties of the design document
    that they satisfy or break.

    Go strings are byte sequences: they are modelled by [string], whose
    characters are bytes. A literal such as "ä" is therefore the two bytes
    of its UTF-8 encoding, exactly as in the Go source. *)

From Stdlib Require Import NArith Ascii String List Bool Lia Sorted.
From stdpp Require Import base option list strings gmap fin_maps.

Local Open Scope string_scope.
Local Open Scope N_scope.

(** ** Bytes and runes *)

Module utf8.

Definition rune := N.

Definition RuneError : rune := 0xFFFD.
Definition RuneSelf : N := 0x80.
Definition MaxRune : rune := 0x10FFFF.

Definition byte (n : N) : ascii := ascii_of_N n.

(** The table [first] together with [acceptRanges]: for a lead byte, the
    length of the sequence and the range allowed for its second byte. The
    other continuation bytes lie in 0x80..0xBF. *)
Definition first (b : N) : option (nat * N * N) :=
  if b <? 0xC2 then None
  else if b <? 0xE0 then Some (2%nat, 0x80, 0xBF)
  else if b =? 0xE0 then Some (3%nat, 0xA0, 0xBF)
  else if b =? 0xED then Some (3%nat, 0x80, 0x9F)
  else if b <? 0xF0 then Some (3%nat, 0x80, 0xBF)
  else if b =? 0xF0 then Some (4%nat, 0x90, 0xBF)
  else if b <? 0xF4 then Some (4%nat, 0x80, 0xBF)
  else if b =? 0xF4 then Some (4%nat, 0x80, 0x8F)
  else None.

Definition between (lo hi b : N) : bool := (lo <=? b) && (b <=? hi).

Definition cont (b : N) : N := N.land b 0x3F.

(** [for _, c := range s]: the runes of a string. A byte that starts no
    well-formed sequence yields [RuneError] and is skipped alone. *)
Fixpoint runes (s : string) : list rune :=
  match s with
  | EmptyString => []
  | String c0 t0 =>
    let b0 := N_of_ascii c0 in
    if b0 <? RuneSelf then b0 :: runes t0
    else
      match first b0, t0 with
      | Some (sz, lo, hi), String c1 t1 =>
        let b1 := N_of_ascii c1 in
        if between lo hi b1 then
          match sz, t1 with
          | 2%nat, _ =>
            N.lor (N.shiftl (N.land b0 0x1F) 6) (cont b1) :: runes t1
          | 3%nat, String c2 t2 =>
            let b2 := N_of_ascii c2 in
            if between 0x80 0xBF b2 then
              N.lor (N.shiftl (N.land b0 0x0F) 12)
                    (N.lor (N.shiftl (cont b1) 6) (cont b2)) :: runes t2
            else RuneError :: runes t0
          | 4%nat, String c2 (String c3 t3) =>
            let b2 := N_of_ascii c2 in
            let b3 := N_of_ascii c3 in
            if between 0x80 0xBF b2 && between 0x80 0xBF b3 then
              N.lor (N.shiftl (N.land b0 0x07) 18)
                    (N.lor (N.shiftl (cont b1) 12)
                           (N.lor (N.shiftl (cont b2) 6) (cont b3)))
                :: runes t3
            else RuneError :: runes t0
          | _, _ => RuneError :: runes t0
          end
        else RuneError :: runes t0
      | _, _ => RuneError :: runes t0
      end
  end.

(** [utf8.EncodeRune]. *)
Definition EncodeRune (r : rune) : string :=
  if r <=? 0x7F then String (byte r) ""
  else if r <=? 0x7FF then
    String (byte (N.lor 0xC0 (N.shiftr r 6)))
      (String (byte (N.lor 0x80 (cont r))) "")
  else
    let r := if (MaxRune <? r) || between 0xD800 0xDFFF r
             then RuneError else r in
    if r <=? 0xFFFF then
      String (byte (N.lor 0xE0 (N.shiftr r 12)))
        (String (byte (N.lor 0x80 (cont (N.shiftr r 6))))
          (String (byte (N.lor 0x80 (cont r))) ""))
    else
      String (byte (N.lor 0xF0 (N.shiftr r 18)))
        (String (byte (N.lor 0x80 (cont (N.shiftr r 12))))
          (String (byte (N.lor 0x80 (cont (N.shiftr r 6))))
            (String (byte (N.lor 0x80 (cont r))) ""))).

Fixpoint WriteRunes (l : list rune) : string :=
  match l with
  | [] => ""
  | r :: l => EncodeRune r +:+ WriteRunes l
  end.

End utf8.

(** ** The library functions that [TitleUrl] calls *)

Module unicode.

(** [unicode.ToLower], on the runes whose lower case can survive the rest
    of [TitleUrl]: the ASCII letters, the Latin-1 capitals (among them
    Ä, Ö, Ü), and the three runes outside Latin-1 whose lower case is an
    ASCII letter or ß (U+0130 to i, U+1E9E to ß, U+212A to k). The case
    table sends every other rune to a rune that is neither ASCII nor one
    of ä, ö, ü, ß; [TitleUrl] deletes those whatever they are, so they are
    left as they are here. *)
Definition ToLower (r : utf8.rune) : utf8.rune :=
  if utf8.between 0x41 0x5A r then r + 32
  else if utf8.between 0xC0 0xDE r && negb (r =? 0xD7) then r + 32
  else if r =? 0x130 then 0x69
  else if r =? 0x1E9E then 0xDF
  else if r =? 0x212A then 0x6B
  else if r =? 0x212B then 0xE5
  else r.

End unicode.

Module strings.

(** [strings.Map(mapping, s)] for a mapping that drops no rune. *)
Definition Map (mapping : utf8.rune -> utf8.rune) (s : string) : string :=
  utf8.WriteRunes (map mapping (utf8.runes s)).

Definition ToLower (s : string) : string := Map unicode.ToLower s.

(** [strings.NewReplacer(oldnew...).Replace(s)], the generic replacer for
    non-empty old strings: at each position the first pair, in argument
    order, whose old string starts there is replaced, and the scan goes
    on after it. [skip] counts the bytes of a match still to pass. *)
Fixpoint lookup_pair (oldnew : list (string * string)) (s : string)
  : option (string * string) :=
  match oldnew with
  | [] => None
  | (old, new) :: rest =>
    if String.prefix old s then Some (old, new) else lookup_pair rest s
  end.

Fixpoint Replace_from (oldnew : list (string * string)) (skip : nat)
         (s : string) : string :=
  match s with
  | EmptyString => ""
  | String c rest =>
    match skip with
    | S k => Replace_from oldnew k rest
    | O =>
      match lookup_pair oldnew s with
      | Some (old, new) =>
        new +:+ Replace_from oldnew (String.length old - 1)%nat rest
      | None => String c (Replace_from oldnew 0%nat rest)
      end
    end
  end.

Definition Replace (oldnew : list (string * string)) (s : string) : string :=
  Replace_from oldnew 0%nat s.

End strings.


Module regexp.

(** The three patterns of [TitleUrl] have one shape: a class of single
    bytes repeated between [rmin] and [rmax] times ([None]: unbounded),
    with [rmin] at least one. *)
Record Regexp := MustCompile {
  cls : ascii -> bool;
  rmin : nat;
  rmax : option nat
}.

(** What a finished run [pend] of class bytes becomes: the replacement
    when it is a match, itself when it is too short to be one. *)
Definition flush (re : Regexp) (repl pend : string) : string :=
  if (rmin re <=? String.length pend)%nat then repl else pend.

Definition full (re : Regexp) (pend : string) : bool :=
  match rmax re with
  | Some n => (n <=? String.length pend)%nat
  | None => false
  end.

(** [re.ReplaceAllString(src, repl)] for a replacement without [$]:
    matches are leftmost, greedy and do not overlap. [pend] holds the
    class bytes read since the last emitted byte. *)
Fixpoint ReplaceAll_from (re : Regexp) (repl pend src : string) : string :=
  match src with
  | EmptyString => flush re repl pend
  | String c rest =>
    if cls re c then
      if full re pend
      then flush re repl pend +:+ ReplaceAll_from re repl (String c "") rest
      else ReplaceAll_from re repl (pend +:+ String c "") rest
    else flush re repl pend +:+ String c (ReplaceAll_from re repl "" rest)
  end.

Definition ReplaceAllString (re : Regexp) (src repl : string) : string :=
  ReplaceAll_from re repl "" src.

End regexp.

Module url.

Definition is_alnum (c : ascii) : bool :=
  let b := N_of_ascii c in
  utf8.between 0x61 0x7A b || utf8.between 0x41 0x5A b
  || utf8.between 0x30 0x39 b.

(** [shouldEscape(c, encodePathSegment)]. *)
Definition shouldEscape (c : ascii) : bool :=
  if is_alnum c then false
  else if bool_decide (c ∈ ["-"; "_"; "."; "~"]%char) then false
  else if bool_decide (c ∈ ["$"; "&"; "+"; ":"; "="; "@"]%char) then false
  else true.

Definition upperhex (n : N) : ascii :=
  if n <? 10 then utf8.byte (0x30 + n) else utf8.byte (0x41 + (n - 10)).

(** [url.PathEscape]. *)
Fixpoint PathEscape (s : string) : string :=
  match s with
  | EmptyString => ""
  | String c rest =>
    if shouldEscape c then
      String "%" (String (upperhex (N.shiftr (N_of_ascii c) 4))
                 (String (upperhex (N.land (N_of_ascii c) 15))
                         (PathEscape rest)))
    else String c (PathEscape rest)
  end.

End url.

(** ** The slug generator *)

Definition is_space (c : ascii) : bool := bool_decide (c = " "%char).
Definition is_hyphen (c : ascii) : bool := bool_decide (c = "-"%char).

(** [[^a-zA-Z0-9 ]]. A rune outside ASCII belongs to the class and is
    encoded by bytes above 0x7F only, so that deleting the runes of the class
    is deleting the bytes of the class. *)
Definition re_strip : regexp.Regexp :=
  regexp.MustCompile (fun c => negb (url.is_alnum c || is_space c)) 1 (Some 1%nat).

(** [ +]. *)
Definition re_spaces : regexp.Regexp := regexp.MustCompile is_space 1 None.

(** [-{2,10}]. *)
Definition re_hyphens : regexp.Regexp :=
  regexp.MustCompile is_hyphen 2 (Some 10%nat).

Definition umlauts : list (string * string) :=
  [("ä", "ae"); ("ö", "oe"); ("ü", "ue"); ("ß", "ss")].

Definition TitleUrl (title : string) : string :=
  let t := strings.ToLower title in
  let t := strings.Replace umlauts t in
  let t := regexp.ReplaceAllString re_strip t "" in
  let t := regexp.ReplaceAllString re_spaces t "-" in
  let t := regexp.ReplaceAllString re_hyphens t "-" in
  url.PathEscape t.

(** [otherPodcasts[t]] on a [map[string]bool]: a missing key reads false. *)
Definition index (m : gmap string bool) (k : string) : bool :=
  default false (m !! k).

(** The loop of [GetTitleUrl]. [None] stands for a loop that has not left
    after [fuel] tests. *)
Fixpoint GetTitleUrl_loop (fuel : nat) (otherPodcasts : gmap string bool)
         (t : string) : option string :=
  match fuel with
  | O => None
  | S fuel =>
    if index otherPodcasts t
    then GetTitleUrl_loop fuel otherPodcasts (t +:+ "x")
    else Some t
  end.

(** [GetTitleUrl]. One test more than the map has keys is enough for the
    loop to leave ([GetTitleUrl_loop_enough] below), so the second branch is
    never taken. *)
Definition GetTitleUrl (title : string) (otherPodcasts : gmap string bool)
  : string :=
  let t := TitleUrl title in
  match GetTitleUrl_loop (S (size otherPodcasts)) otherPodcasts t with
  | Some t => t
  | None => t
  end.


(** ** The data model *)

Definition Time := N.
Definition ObjectID := N.
Definition error := string.

(** The zero [ObjectID]: the field is left out of the document
    ([omitempty]) and the store assigns an identifier. *)
Definition NilObjectID : ObjectID := 0.

Module gofeed.

Module ITunesOwner.
Record t := mk { Email : string; Name : string }.
End ITunesOwner.

Module ITunesFeedExtension.
Record t := mk {
  Author : string;
  Subtitle : string;
  Image : string;
  Owner : option ITunesOwner.t
}.
End ITunesFeedExtension.

Module ITunesItemExtension.
Record t := mk {
  Duration : string;
  Summary : string;
  Subtitle : string;
  Image : string
}.
End ITunesItemExtension.

Module Enclosure.
Record t := mk { URL : string; Length : string; Type_ : string }.
End Enclosure.

Module Item.
Record t := mk {
  Title : string;
  Description : string;
  Content : string;
  GUID : string;
  PublishedParsed : option Time;
  Enclosures : list Enclosure.t;
  ITunesExt : option ITunesItemExtension.t
}.
End Item.

Module Feed.
Record t := mk {
  Title : string;
  Description : string;
  Link : string;
  FeedLink : string;
  Categories : list string;
  PublishedParsed : option Time;
  ITunesExt : option ITunesFeedExtension.t;
  Items : list Item.t
}.
End Feed.

End gofeed.

Module PodcastOwner.
Record t := mk { Name : string; Email : string }.
End PodcastOwner.

Module EpisodeEnclosure.
Record t := mk { Filesize : string; Filetype : string; Url : string }.
End EpisodeEnclosure.

Module Podcast.
Record t := mk {
  ID : ObjectID;
  Title : string;
  Categories : list string;
  Link : string;
  Description : string;
  Subtitle : string;
  Owner : PodcastOwner.t;
  Author : string;
  Image : string;
  Feed : string;
  PodlistUrl : string;
  Updated : Time
}.
End Podcast.

Module Episode.
Record t := mk {
  ID : ObjectID;
  PodlistUrl : string;
  PodcastId : ObjectID;
  PodcastUrl : string;
  PodcastTitle : string;
  PodcastImage : string;
  Guid : string;
  Title : string;
  Published : Time;
  Duration : string;
  Summary : string;
  Subtitle : string;
  Description : string;
  Image : string;
  Content : string;
  Enclosure : EpisodeEnclosure.t
}.
End Episode.

(** ** The store and the state of a run *)

Module bson.

Inductive Value :=
| VString (s : string)
| VStrings (l : list string)
| VTime (t : Time)
| VOwner (o : PodcastOwner.t).

(** [bson.M]. *)
Abbreviation M := (gmap string Value).

(** What [{"$set": {key: v}}] does to a podcast document, read through the
    [bson] tags of [Podcast]. A key that is no tag of the struct, or a
    value of another type than the field, does not show in the decoded
    record. *)
Definition set_field (key : string) (v : Value) (p : Podcast.t) : Podcast.t :=
  let '(Podcast.mk id title cats link descr sub owner author image feed slug upd) := p in
  match v with
  | VString s =>
    if String.eqb key "title" then
      Podcast.mk id s cats link descr sub owner author image feed slug upd
    else if String.eqb key "link" then
      Podcast.mk id title cats s descr sub owner author image feed slug upd
    else if String.eqb key "description" then
      Podcast.mk id title cats link s sub owner author image feed slug upd
    else if String.eqb key "subtitle" then
      Podcast.mk id title cats link descr s owner author image feed slug upd
    else if String.eqb key "author" then
      Podcast.mk id title cats link descr sub owner s image feed slug upd
    else if String.eqb key "image" then
      Podcast.mk id title cats link descr sub owner author s feed slug upd
    else if String.eqb key "feed" then
      Podcast.mk id title cats link descr sub owner author image s slug upd
    else if String.eqb key "podlistUrl" then
      Podcast.mk id title cats link descr sub owner author image feed s upd
    else p
  | VStrings l =>
    if String.eqb key "categories" then
      Podcast.mk id title l link descr sub owner author image feed slug upd
    else p
  | VTime t =>
    if String.eqb key "updated" then
      Podcast.mk id title cats link descr sub owner author image feed slug t
    else p
  | VOwner o =>
    if String.eqb key "owner" then
      Podcast.mk id title cats link descr sub o author image feed slug upd
    else p
  end.

Definition apply_set (set : M) (p : Podcast.t) : Podcast.t :=
  map_fold set_field p set.

End bson.

Inductive Log :=
| FeedLoaded (url : string)
| UpdatingPodcast (pTitleUrl : string)
| CreatingPodcast (pTitleUrl : string)
| UpdateError (title : string) (err : error)
| Inserted (n : nat) (title : string)
| NoNewEpisodes (title : string)
| LoadError (url : string) (err : error)
| ProcessError (url : string) (err : error).

(** The two collections, the identifier the store assigns next, the clock
    that [time.Now] reads, the two maps that [main] builds once and hands
    by reference to every [processFeed], and the log. *)
Record State := mkState {
  podcasts : list Podcast.t;
  episodes : list Episode.t;
  next_id : ObjectID;
  clock : Time;
  existingPodcastFeeds : gmap string bool;
  podcastTitles : gmap string bool;
  log : list Log
}.

(** What the outer world answers during one [processFeedURL]: the result of
    the parser, and for each call to the store whether it fails. An ordered
    [BulkWrite] that fails has written the operations before the failing
    one. *)
Inductive Result (A : Type) :=
| Ok (a : A)
| Err (e : error).
Arguments Ok {A} a.
Arguments Err {A} e.

Record World := mkWorld {
  ParseURLWithContext : string -> Result gofeed.Feed.t;
  FindOne_err : option error;
  UpdateOne_err : option error;
  InsertOne_err : option error;
  Find_err : option error;
  All_err : option error;
  BulkWrite_err : option (nat * error)
}.

(** State and error: a computation reads and changes the state and returns a
    value or an [error]. *)
Definition M (A : Type) : Type := State -> Result A * State.

Definition ret {A} (a : A) : M A := fun st => (Ok a, st).

Definition bind {A B} (m : M A) (k : A -> M B) : M B :=
  fun st =>
    match m st with
    | (Ok a, st') => k a st'
    | (Err e, st') => (Err e, st')
    end.

Definition fail {A} (e : error) : M A := fun st => (Err e, st).

Notation "'do' x <- m ; k" := (bind m (fun x => k))
  (at level 10, x name, m at level 100, k at level 200).

(** [fmt.Errorf(prefix + "%v", err)] around a failing call. *)
Definition Errorf {A} (prefix : string) (m : M A) : M A :=
  fun st =>
    match m st with
    | (Ok a, st') => (Ok a, st')
    | (Err e, st') => (Err (prefix +:+ e), st')
    end.

Definition get : M State := fun st => (Ok st, st).

Definition time_Now : M Time :=
  fun st =>
    (Ok (clock st),
     mkState (podcasts st) (episodes st) (next_id st) (clock st + 1)
             (existingPodcastFeeds st) (podcastTitles st) (log st)).

Definition log_Printf (l : Log) : M unit :=
  fun st =>
    (Ok tt,
     mkState (podcasts st) (episodes st) (next_id st) (clock st)
             (existingPodcastFeeds st) (podcastTitles st) (log st ++ [l])).

(** [existingPodcastFeeds[k] = true] and [podcastTitles[k] = true]. *)
Definition set_existingPodcastFeeds (k : string) : M unit :=
  fun st =>
    (Ok tt,
     mkState (podcasts st) (episodes st) (next_id st) (clock st)
             (<[k := true]> (existingPodcastFeeds st)) (podcastTitles st)
             (log st)).

Definition set_podcastTitles (k : string) : M unit :=
  fun st =>
    (Ok tt,
     mkState (podcasts st) (episodes st) (next_id st) (clock st)
             (existingPodcastFeeds st) (<[k := true]> (podcastTitles st))
             (log st)).

(** ** The store *)

(** A string field tagged [omitempty] is left out of the document when it is
    empty, and an equality filter matches no document that lacks the
    field. *)
Definition field_is (v field : string) : bool :=
  negb (String.eqb field "") && String.eqb field v.

Definition FindOne (w : World) (feed : string) : M Podcast.t :=
  fun st =>
    match FindOne_err w with
    | Some e => (Err e, st)
    | None =>
      match List.find (fun p => field_is feed (Podcast.Feed p)) (podcasts st) with
      | Some p => (Ok p, st)
      | None => (Err "mongo: no documents in result", st)
      end
    end.

Fixpoint update_first (id : ObjectID) (f : Podcast.t -> Podcast.t)
         (l : list Podcast.t) : list Podcast.t :=
  match l with
  | [] => []
  | p :: l =>
    if Podcast.ID p =? id then f p :: l else p :: update_first id f l
  end.

Definition UpdateOne (w : World) (id : ObjectID) (set : bson.M) : M unit :=
  fun st =>
    match UpdateOne_err w with
    | Some e => (Err e, st)
    | None =>
      (Ok tt,
       mkState (update_first id (bson.apply_set set) (podcasts st))
               (episodes st) (next_id st) (clock st)
               (existingPodcastFeeds st) (podcastTitles st) (log st))
    end.

Definition with_ID (id : ObjectID) (p : Podcast.t) : Podcast.t :=
  let '(Podcast.mk _ title cats link descr sub owner author image feed slug upd) := p in
  Podcast.mk id title cats link descr sub owner author image feed slug upd.

Definition InsertOne (w : World) (p : Podcast.t) : M unit :=
  fun st =>
    match InsertOne_err w with
    | Some e => (Err e, st)
    | None =>
      let p := if Podcast.ID p =? NilObjectID then with_ID (next_id st) p else p in
      (Ok tt,
       mkState (podcasts st ++ [p]) (episodes st) (next_id st + 1) (clock st)
               (existingPodcastFeeds st) (podcastTitles st) (log st))
    end.

(** [Find] returns a cursor over the matching documents, [cursor.All]
    decodes them. *)
Definition Find (w : World) (podcastUrl : string) : M (list Episode.t) :=
  fun st =>
    match Find_err w with
    | Some e => (Err e, st)
    | None =>
      (Ok (List.filter (fun e => field_is podcastUrl (Episode.PodcastUrl e))
                       (episodes st)), st)
    end.

Definition All (w : World) (cursor : list Episode.t) : M (list Episode.t) :=
  fun st =>
    match All_err w with
    | Some e => (Err e, st)
    | None => (Ok cursor, st)
    end.

Definition with_episode_ID (id : ObjectID) (e : Episode.t) : Episode.t :=
  let '(Episode.mk _ a b c d f g h i j k l m n o p) := e in
  Episode.mk id a b c d f g h i j k l m n o p.

(** The documents of the batch receive consecutive identifiers. *)
Fixpoint assign_IDs (id : ObjectID) (l : list Episode.t) : list Episode.t :=
  match l with
  | [] => []
  | e :: l =>
    (if Episode.ID e =? NilObjectID then with_episode_ID id e else e)
      :: assign_IDs (id + 1) l
  end.

Definition BulkWrite (w : World) (operations : list Episode.t) : M unit :=
  fun st =>
    let written :=
        match BulkWrite_err w with
        | Some (n, _) => take n operations
        | None => operations
        end in
    (match BulkWrite_err w with
     | Some (_, e) => Err e
     | None => Ok tt
     end,
     mkState (podcasts st) (episodes st ++ assign_IDs (next_id st) written)
             (next_id st + N.of_nat (length written)) (clock st)
             (existingPodcastFeeds st) (podcastTitles st) (log st)).

(** ** The feed fetcher *)

Definition with_FeedLink (url : string) (feed : gofeed.Feed.t) : gofeed.Feed.t :=
  let '(gofeed.Feed.mk title descr link _ cats pub ext items) := feed in
  gofeed.Feed.mk title descr link url cats pub ext items.

Definition LoadFeed (w : World) (url : string) : M gofeed.Feed.t :=
  match ParseURLWithContext w url with
  | Err err => fail ("feed error: " +:+ err)
  | Ok feed =>
    let feed :=
        if (String.length (gofeed.Feed.FeedLink feed) <=? 0)%nat
        then with_FeedLink url feed else feed in
    do _ <- log_Printf (FeedLoaded url);
    ret feed
  end.

(** ** The reconciler *)

Definition createNewPodcast (now : Time) (feed : gofeed.Feed.t)
           (pTitleUrl : string) : Podcast.t :=
  let t := match gofeed.Feed.PublishedParsed feed with
           | Some p => p
           | None => now
           end in
  let o := match gofeed.Feed.ITunesExt feed with
           | Some ext =>
             match gofeed.ITunesFeedExtension.Owner ext with
             | Some owner =>
               PodcastOwner.mk (gofeed.ITunesOwner.Name owner)
                               (gofeed.ITunesOwner.Email owner)
             | None => PodcastOwner.mk "" ""
             end
           | None => PodcastOwner.mk "" ""
           end in
  let '(subtitle, author, image) :=
      match gofeed.Feed.ITunesExt feed with
      | Some ext => (gofeed.ITunesFeedExtension.Subtitle ext,
                     gofeed.ITunesFeedExtension.Author ext,
                     gofeed.ITunesFeedExtension.Image ext)
      | None => ("", "", "")
      end in
  Podcast.mk NilObjectID
             (gofeed.Feed.Title feed)
             (gofeed.Feed.Categories feed)
             (gofeed.Feed.Link feed)
             (gofeed.Feed.Description feed)
             subtitle o author image
             (gofeed.Feed.FeedLink feed)
             pTitleUrl
             t.

(** The [$set] document of [updatePodcast]. *)
Definition update_set (now : Time) (feed : gofeed.Feed.t) : bson.M :=
  let set : bson.M :=
      <["updated" := bson.VTime now]>
      (<["description" := bson.VString (gofeed.Feed.Description feed)]>
      (<["link" := bson.VString (gofeed.Feed.Link feed)]>
      (<["categories" := bson.VStrings (gofeed.Feed.Categories feed)]> ∅))) in
  match gofeed.Feed.ITunesExt feed with
  | Some ext =>
    <["image" := bson.VString (gofeed.ITunesFeedExtension.Image ext)]>
    (<["author" := bson.VString (gofeed.ITunesFeedExtension.Author ext)]>
    (<["subtitle" := bson.VString (gofeed.ITunesFeedExtension.Subtitle ext)]> set))
  | None => set
  end.

Definition updatePodcast (w : World) (podcast : Podcast.t)
           (feed : gofeed.Feed.t) : M unit :=
  do now <- time_Now;
  let update := update_set now feed in
  fun st =>
    match UpdateOne w (Podcast.ID podcast) update st with
    | (Ok _, st') => (Ok tt, st')
    | (Err err, st') =>
      log_Printf (UpdateError (Podcast.Title podcast) err) st'
    end.

Definition createEpisode (now : Time) (e : gofeed.Item.t)
           (podcast : Podcast.t) : Episode.t :=
  let et := match gofeed.Item.PublishedParsed e with
            | Some p => p
            | None => now
            end in
  let ee := match gofeed.Item.Enclosures e with
            | enc :: _ =>
              EpisodeEnclosure.mk (gofeed.Enclosure.Length enc)
                                  (gofeed.Enclosure.Type_ enc)
                                  (gofeed.Enclosure.URL enc)
            | [] => EpisodeEnclosure.mk "" "" ""
            end in
  let '(duration, summary, subtitle, image) :=
      match gofeed.Item.ITunesExt e with
      | Some ext => (gofeed.ITunesItemExtension.Duration ext,
                     gofeed.ITunesItemExtension.Summary ext,
                     gofeed.ITunesItemExtension.Subtitle ext,
                     gofeed.ITunesItemExtension.Image ext)
      | None => ("", "", "", "")
      end in
  Episode.mk NilObjectID
             (GetTitleUrl (gofeed.Item.Title e) ∅)
             NilObjectID
             (Podcast.PodlistUrl podcast)
             (Podcast.Title podcast)
             (Podcast.Image podcast)
             (gofeed.Item.GUID e)
             (gofeed.Item.Title e)
             et duration summary subtitle
             (gofeed.Item.Description e)
             image
             (gofeed.Item.Content e)
             ee.

(** [for _, e := range episodes { existingEpisodes[e.Guid] = true }]. *)
Definition guid_set (episodes : list Episode.t) : gmap string bool :=
  fold_left (fun m e => <[Episode.Guid e := true]> m) episodes ∅.

(** The loop of [processEpisodes] over [feed.Items]. *)
Fixpoint collect (existingEpisodes : gmap string bool) (podcast : Podcast.t)
         (items : list gofeed.Item.t) (newEpisodes : list Episode.t)
  : M (list Episode.t) :=
  match items with
  | [] => ret newEpisodes
  | e :: items =>
    match gofeed.Item.ITunesExt e with
    | Some _ =>
      if negb (index existingEpisodes (gofeed.Item.GUID e)) then
        do now <- time_Now;
        let episode := createEpisode now e podcast in
        collect existingEpisodes podcast items (newEpisodes ++ [episode])
      else collect existingEpisodes podcast items newEpisodes
    | None => collect existingEpisodes podcast items newEpisodes
    end
  end.

Definition processEpisodes (w : World) (feed : gofeed.Feed.t)
           (podcast : Podcast.t) : M unit :=
  do cursor <- Errorf "error fetching existing episodes: "
                 (Find w (Podcast.PodlistUrl podcast));
  do episodes <- Errorf "error decoding existing episodes: " (All w cursor);
  let existingEpisodes := guid_set episodes in
  do newEpisodes <- collect existingEpisodes podcast (gofeed.Feed.Items feed) [];
  if (0 <? length newEpisodes)%nat then
    do _ <- Errorf "error inserting new episodes: " (BulkWrite w newEpisodes);
    log_Printf (Inserted (length newEpisodes) (Podcast.Title podcast))
  else
    log_Printf (NoNewEpisodes (Podcast.Title podcast)).

Definition processFeed (w : World) (feed : gofeed.Feed.t) : M unit :=
  do st <- get;
  let pTitleUrl := GetTitleUrl (gofeed.Feed.Title feed) (podcastTitles st) in
  do podcast <-
     (if index (existingPodcastFeeds st) (gofeed.Feed.FeedLink feed) then
        do _ <- log_Printf (UpdatingPodcast pTitleUrl);
        do podcast <- Errorf "error fetching existing podcast: "
                        (FindOne w (gofeed.Feed.FeedLink feed));
        do _ <- updatePodcast w podcast feed;
        ret podcast
      else
        do _ <- log_Printf (CreatingPodcast pTitleUrl);
        do now <- time_Now;
        let podcast := createNewPodcast now feed pTitleUrl in
        do _ <- Errorf "error inserting podcast: " (InsertOne w podcast);
        do _ <- set_existingPodcastFeeds (gofeed.Feed.FeedLink feed);
        do _ <- set_podcastTitles pTitleUrl;
        ret podcast);
  Errorf "error processing episodes: " (processEpisodes w feed podcast).

(** [processFeedURL]: both kinds of error are logged and the run goes on. *)
Definition processFeedURL (w : World) (url : string) : M unit :=
  fun st =>
    match LoadFeed w url st with
    | (Err err, st') => log_Printf (LoadError url err) st'
    | (Ok feed, st') =>
      match processFeed w feed st' with
      | (Err err, st'') => log_Printf (ProcessError url err) st''
      | (Ok _, st'') => (Ok tt, st'')
      end
    end.

(** ** Vocabulary of the properties *)

Fixpoint all_bytes (p : ascii -> bool) (s : string) : bool :=
  match s with
  | EmptyString => true
  | String c rest => p c && all_bytes p rest
  end.

Fixpoint filter_bytes (p : ascii -> bool) (s : string) : string :=
  match s with
  | EmptyString => ""
  | String c rest =>
    if p c then String c (filter_bytes p rest) else filter_bytes p rest
  end.

Definition is_ascii (c : ascii) : bool := N_of_ascii c <? utf8.RuneSelf.
Definition is_upper (c : ascii) : bool := utf8.between 0x41 0x5A (N_of_ascii c).

(** The bytes of a slug: [a-z0-9] and the hyphen. *)
Definition is_lower_alnum (c : ascii) : bool :=
  let b := N_of_ascii c in
  utf8.between 0x61 0x7A b || utf8.between 0x30 0x39 b.
Definition is_slug_byte (c : ascii) : bool := is_lower_alnum c || is_hyphen c.

(** An ASCII byte that is neither a letter, a digit nor a space. *)
Definition is_punct (c : ascii) : bool :=
  is_ascii c && negb (url.is_alnum c || is_space c).

(** No two hyphens in a row. *)
Fixpoint no_double_hyphen (s : string) : bool :=
  match s with
  | EmptyString => true
  | String c rest =>
    match rest with
    | String c' _ => negb (is_hyphen c && is_hyphen c')
    | EmptyString => true
    end && no_double_hyphen rest
  end.

Definition starts_with (p : ascii -> bool) (s : string) : bool :=
  match s with
  | String c _ => p c
  | EmptyString => false
  end.

(** [t] followed by [n] times the letter x. *)
Fixpoint candidate (t : string) (n : nat) : string :=
  match n with
  | O => t
  | S n => candidate t n +:+ "x"
  end.

(** *** The slug generator in the words of the design document *)

(** The maximal runs of equal bytes of a string, in order. *)
Fixpoint runs (s : string) : list (ascii * nat) :=
  match s with
  | EmptyString => []
  | String c rest =>
    match runs rest with
    | (c', n) :: r =>
      if Ascii.eqb c c' then (c, S n) :: r else (c, 1%nat) :: (c', n) :: r
    | [] => [(c, 1%nat)]
    end
  end.

Fixpoint repeat_byte (c : ascii) (n : nat) (tail : string) : string :=
  match n with
  | O => tail
  | S n => String c (repeat_byte c n tail)
  end.

Fixpoint unruns (l : list (ascii * nat)) : string :=
  match l with
  | [] => ""
  | (c, n) :: l => repeat_byte c n (unruns l)
  end.

Definition map_runs (f : ascii * nat -> ascii * nat) (s : string) : string :=
  unruns (map f (runs s)).

(** "transliterates ä to ae, ö to oe, ü to ue, ß to ss". *)
Fixpoint transliterate (s : string) : string :=
  match s with
  | EmptyString => ""
  | String c rest =>
    match rest with
    | String c' rest' =>
      if Ascii.eqb c "195" then
        if Ascii.eqb c' "164" then "ae" +:+ transliterate rest'
        else if Ascii.eqb c' "182" then "oe" +:+ transliterate rest'
        else if Ascii.eqb c' "188" then "ue" +:+ transliterate rest'
        else if Ascii.eqb c' "159" then "ss" +:+ transliterate rest'
        else String c (transliterate rest)
      else String c (transliterate rest)
    | EmptyString => String c ""
    end
  end.

(** "strips every character outside [a-zA-Z0-9 ]". *)
Definition strip_outside (s : string) : string :=
  filter_bytes (fun c => url.is_alnum c || is_space c) s.

(** "collapses runs of spaces into a single hyphen". *)
Definition spaces_to_hyphen (s : string) : string :=
  map_runs (fun '(c, n) => if is_space c then ("-"%char, 1%nat) else (c, n)) s.



(** "calls slugify, then, while the result is present in usedSlugs, appends
    a literal x character and re-slugifies". *)
Fixpoint uniqueSlug_spec_loop (fuel : nat) (usedSlugs : gmap string bool)
         (t : string) : option string :=
  match fuel with
  | O => None
  | S fuel =>
    if index usedSlugs t
    then uniqueSlug_spec_loop fuel usedSlugs (TitleUrl (t +:+ "x"))
    else Some t
  end.

Definition uniqueSlug_spec (title : string) (usedSlugs : gmap string bool)
  : option string :=
  uniqueSlug_spec_loop (S (size usedSlugs)) usedSlugs (TitleUrl title).

(** [n] calls of [GetTitleUrl] with one title, each result being added to
    the map before the next call: the results, in order, and the map at the
    end. *)
Fixpoint calls (n : nat) (title : string) (usedSlugs : gmap string bool)
  : list string * gmap string bool :=
  match n with
  | O => ([], usedSlugs)
  | S n =>
    let t := GetTitleUrl title usedSlugs in
    let '(l, m) := calls n title (<[t := true]> usedSlugs) in
    (t :: l, m)
  end.


(** *** The reconciler *)

Definition has_ext (e : gofeed.Item.t) : bool :=
  match gofeed.Item.ITunesExt e with
  | Some _ => true
  | None => false
  end.

(** The episodes that the loop of [processEpisodes] creates, the clock
    reading [now] at its start. *)
Fixpoint new_episodes (existingEpisodes : gmap string bool)
         (podcast : Podcast.t) (now : Time) (items : list gofeed.Item.t)
  : list Episode.t :=
  match items with
  | [] => []
  | e :: items =>
    if has_ext e && negb (index existingEpisodes (gofeed.Item.GUID e)) then
      createEpisode now e podcast
        :: new_episodes existingEpisodes podcast (now + 1)%N items
    else new_episodes existingEpisodes podcast now items
  end.

(** The state after [n] readings of the clock. *)
Definition tick (n : N) (st : State) : State :=
  mkState (podcasts st) (episodes st) (next_id st) (clock st + n)%N
          (existingPodcastFeeds st) (podcastTitles st) (log st).

(** A feed with other items. *)
Definition with_Items (items : list gofeed.Item.t) (feed : gofeed.Feed.t)
  : gofeed.Feed.t :=
  let '(gofeed.Feed.mk title descr link feedLink cats pub ext _) := feed in
  gofeed.Feed.mk title descr link feedLink cats pub ext items.

(** What the document calls immutable in a podcast record, with its
    identifier. *)
Definition immutable (p : Podcast.t) : ObjectID * string * string * string :=
  (Podcast.ID p, Podcast.Title p, Podcast.PodlistUrl p, Podcast.Feed p).

(** The keys that the document allows an update to write. *)
Definition mutable_keys : gset string :=
  {[ "categories"; "link"; "description"; "subtitle"; "author"; "image";
     "updated" ]}.

(** *** Sample feeds *)

Definition sample_ext : gofeed.ITunesItemExtension.t :=
  gofeed.ITunesItemExtension.mk "12:00" "" "" "".

Definition sample_item (title guid : string) (ext : bool) : gofeed.Item.t :=
  gofeed.Item.mk title "" "" guid None []
                 (if ext then Some sample_ext else None).

Definition sample_feed (title feedLink : string) (items : list gofeed.Item.t)
  : gofeed.Feed.t :=
  gofeed.Feed.mk title "" "https://a.example" feedLink [] None None items.

(** A world in which the store never fails and the parser answers [feed] to
    every address. *)
Definition serving (feed : gofeed.Feed.t) : World :=
  mkWorld (fun _ => Ok feed) None None None None None None.

(** The state of a run that starts on an empty store. *)
Definition empty_run : State := mkState [] [] 1%N 0%N ∅ ∅ [].

(** The lower case of an ASCII byte. *)
Definition lower_byte (c : ascii) : ascii :=
  if is_upper c then utf8.byte (N_of_ascii c + 32)%N else c.

Fixpoint map_bytes (f : ascii -> ascii) (s : string) : string :=
  match s with
  | EmptyString => ""
  | String c rest => String (f c) (map_bytes f rest)
  end.

(** *** The start of a run and its batches *)

(** The loop of [loadExistingPodcasts] over the decoded podcasts of the
    store. (A store that cannot be read ends the process before it.) *)
Definition loadExistingPodcasts (podcasts : list Podcast.t)
  : gmap string bool * gmap string bool :=
  fold_left (fun maps p =>
               (<[Podcast.Feed p := true]> maps.1,
                <[Podcast.PodlistUrl p := true]> maps.2))
            podcasts (∅, ∅).

Definition batchSize : nat := 10.

(** [feeds[i:end]]. *)
Definition slice {A} (l : list A) (i end_ : nat) : list A :=
  take (end_ - i) (drop i l).

(** The loop of [processFeedsInBatches] from index [i] on: the bounds
    [(i, end)] of the slices handed to [processBatch], in order. [None]
    stands for a loop that has not left after [fuel] tests. *)
Fixpoint batches_from (fuel : nat) (feeds : list string) (i : nat)
  : option (list (nat * nat)) :=
  match fuel with
  | O => None
  | S fuel =>
    if (i <? length feeds)%nat then
      let end_ := (i + batchSize)%nat in
      let end_ := if (length feeds <? end_)%nat then length feeds else end_ in
      match batches_from fuel feeds (i + batchSize)%nat with
      | Some rest => Some ((i, end_) :: rest)
      | None => None
      end
    else Some []
  end.

(** The slices that [processFeedsInBatches] hands to [processBatch]. One
    test more than there are feeds is enough for the loop to leave. *)
Definition processFeedsInBatches (feeds : list string)
  : option (list (list string)) :=
  match batches_from (S (length feeds)) feeds 0 with
  | Some bounds => Some ((fun b => slice feeds b.1 b.2) <$> bounds)
  | None => None
  end.

(** The feeds of a run processed one after another, each against the
    answers of its own world. [processBatch] starts them concurrently: this
    is a run in which no two of them overlap. *)
Fixpoint one_after_another (steps : list (World * string)) (st : State) : State :=
  match steps with
  | [] => st
  | (w, url) :: steps => one_after_another steps (processFeedURL w url st).2
  end.

(** Every podcast of the store has its feed URL and its slug in the maps,
    and no two podcasts of the store share a feed URL or a slug. *)
Definition indexed (st : State) : Prop :=
  Forall (fun k => index (existingPodcastFeeds st) k = true)
         (Podcast.Feed <$> podcasts st) /\
  Forall (fun k => index (podcastTitles st) k = true)
         (Podcast.PodlistUrl <$> podcasts st).

Definition distinct (st : State) : Prop :=
  NoDup (Podcast.Feed <$> podcasts st) /\
  NoDup (Podcast.PodlistUrl <$> podcasts st).

(** What [updatePodcast] makes of a record of the store. *)
Definition refreshed (now : Time) (feed : gofeed.Feed.t) (p : Podcast.t)
  : Podcast.t :=
  Podcast.mk (Podcast.ID p) (Podcast.Title p)
             (gofeed.Feed.Categories feed)
             (gofeed.Feed.Link feed)
             (gofeed.Feed.Description feed)
             (match gofeed.Feed.ITunesExt feed with
              | Some ext => gofeed.ITunesFeedExtension.Subtitle ext
              | None => Podcast.Subtitle p
              end)
             (Podcast.Owner p)
             (match gofeed.Feed.ITunesExt feed with
              | Some ext => gofeed.ITunesFeedExtension.Author ext
              | None => Podcast.Author p
              end)
             (match gofeed.Feed.ITunesExt feed with
              | Some ext => gofeed.ITunesFeedExtension.Image ext
              | None => Podcast.Image p
              end)
             (Podcast.Feed p) (Podcast.PodlistUrl p) now.

(** * Properties *)

Local Arguments String.append !_ _ / : simpl nomatch.
Local Arguments ascii_dec : simpl never.

(** ** Bytes *)

Lemma all_bytes_app p s1 s2 :
  all_bytes p (s1 +:+ s2) = all_bytes p s1 && all_bytes p s2.
Proof.
  induction s1 as [|c s1 IH]; simpl; [done|].
  rewrite IH. by destruct (p c).
Qed.

Lemma all_bytes_impl (p q : ascii -> bool) s :
  (forall c, p c = true -> q c = true) ->
  all_bytes p s = true -> all_bytes q s = true.
Proof.
  intros Hpq. induction s as [|c s IH]; simpl; [done|].
  intros [Hc Hs]%andb_true_iff. rewrite (Hpq _ Hc). simpl. auto.
Qed.

Lemma filter_bytes_all p s : all_bytes p (filter_bytes p s) = true.
Proof.
  induction s as [|c s IH]; simpl; [done|].
  destruct (p c) eqn:E; simpl; [by rewrite E|done].
Qed.

Lemma filter_bytes_id p s : all_bytes p s = true -> filter_bytes p s = s.
Proof.
  induction s as [|c s IH]; simpl; [done|].
  intros [Hc Hs]%andb_true_iff. rewrite Hc. f_equal. auto.
Qed.

Lemma filter_bytes_none p s :
  all_bytes (fun c => negb (p c)) s = true -> filter_bytes p s = "".
Proof.
  induction s as [|c s IH]; simpl; [done|].
  intros [Hc Hs]%andb_true_iff. apply negb_true_iff in Hc. rewrite Hc. auto.
Qed.

Lemma string_app_cons c (s t : string) : String c s +:+ t = String c (s +:+ t).
Proof. done. Qed.

Lemma string_app_nil_l (t : string) : "" +:+ t = t.
Proof. done. Qed.

Ltac norm_app := rewrite ?string_app_cons, ?string_app_nil_l.

Lemma string_app_nil_r (s : string) : s +:+ "" = s.
Proof. induction s as [|c s IH]; simpl; [done|]. by rewrite IH. Qed.

Lemma string_app_assoc (s1 s2 s3 : string) :
  (s1 +:+ s2) +:+ s3 = s1 +:+ (s2 +:+ s3).
Proof. induction s1 as [|c s1 IH]; simpl; [done|]. by rewrite IH. Qed.

Lemma string_length_app (s1 s2 : string) :
  String.length (s1 +:+ s2) = (String.length s1 + String.length s2)%nat.
Proof. induction s1 as [|c s1 IH]; simpl; [done|]. by rewrite IH. Qed.

(** A property of all numbers below a bound, checked by running through
    them. *)
Lemma below_forallb (f : N -> bool) (n : nat) :
  forallb f (map N.of_nat (seq 0 n)) = true ->
  forall y, y < N.of_nat n -> f y = true.
Proof.
  intros H y Hy. rewrite forallb_forall in H. apply H.
  apply in_map_iff. exists (N.to_nat y). split; [lia|].
  apply in_seq. lia.
Qed.

Lemma byte_high_not_ascii (hi y : N) :
  hi ∈ [0x80; 0xC0; 0xE0; 0xF0] -> y < 64 ->
  is_ascii (utf8.byte (N.lor hi y)) = false.
Proof.
  intros Hhi Hy.
  assert (negb (is_ascii (utf8.byte (N.lor hi y))) = true) as H;
    [|by apply negb_true_iff in H].
  revert y Hy.
  apply (below_forallb (fun y => negb (is_ascii (utf8.byte (N.lor hi y)))) 64).
  repeat (apply elem_of_cons in Hhi as [->|Hhi]; [by vm_compute|]).
  by apply elem_of_nil in Hhi.
Qed.

Lemma cont_lt b : utf8.cont b < 64.
Proof.
  unfold utf8.cont. change 0x3F with (N.ones 6).
  rewrite N.land_ones. by apply N.mod_lt.
Qed.

Lemma shiftr_lt (r : N) (k bound : N) :
  r < bound * 2 ^ k -> N.shiftr r k < bound.
Proof.
  intros H. rewrite N.shiftr_div_pow2.
  apply N.Div0.div_lt_upper_bound. lia.
Qed.

(** Every byte that encodes a rune outside ASCII lies outside ASCII. *)
Lemma EncodeRune_high r :
  0x7F < r -> all_bytes (fun c => negb (is_ascii c)) (utf8.EncodeRune r) = true.
Proof.
  intros Hr. unfold utf8.EncodeRune.
  destruct (r <=? 0x7F) eqn:E1; [apply N.leb_le in E1; lia|].
  destruct (r <=? 0x7FF) eqn:E2.
  { apply N.leb_le in E2. simpl.
    rewrite !byte_high_not_ascii; try done; try apply cont_lt;
      try (rewrite !elem_of_cons; tauto).
    apply (N.lt_trans _ 32); [|done]. apply shiftr_lt. simpl. lia. }
  set (r' := if _ : bool then utf8.RuneError else r).
  assert (r' <= 0x10FFFF) as Hr'.
  { subst r'. destruct (utf8.MaxRune <? r) eqn:E3; simpl.
    - by vm_compute.
    - apply N.ltb_ge in E3. unfold utf8.MaxRune in E3.
      by destruct (utf8.between 0xD800 0xDFFF r). }
  destruct (r' <=? 0xFFFF) eqn:E4; simpl.
  - apply N.leb_le in E4.
    rewrite !byte_high_not_ascii; try done; try apply cont_lt;
      try (rewrite !elem_of_cons; tauto).
    apply (N.lt_trans _ 16); [|done]. apply shiftr_lt. simpl. lia.
  - rewrite !byte_high_not_ascii; try done; try apply cont_lt;
      try (rewrite !elem_of_cons; tauto).
    apply (N.lt_trans _ 32); [|done]. apply shiftr_lt. simpl. lia.
Qed.

(** ** Lower case *)

Lemma unicode_ToLower_not_upper r :
  utf8.between 0x41 0x5A (unicode.ToLower r) = false.
Proof.
  unfold unicode.ToLower, utf8.between.
  repeat match goal with
         | |- context [if ?b then _ else _] => destruct b eqn:?
         end;
    rewrite ?andb_true_iff, ?andb_false_iff, ?N.leb_le, ?N.leb_gt, ?N.eqb_eq in *;
    try (apply andb_false_iff; rewrite !N.leb_gt); lia.
Qed.

Lemma unicode_ToLower_ascii (b : N) :
  b < 0x80 -> utf8.between 0x41 0x5A b = false -> unicode.ToLower b = b.
Proof.
  intros Hb Hup. unfold unicode.ToLower. rewrite Hup.
  unfold utf8.between.
  replace (0xC0 <=? b) with false by (symmetry; apply N.leb_gt; lia).
  simpl.
  repeat match goal with
         | |- context [?x =? ?y] =>
           replace (x =? y) with false by (symmetry; apply N.eqb_neq; lia)
         end.
  done.
Qed.

Lemma is_upper_ascii c : is_upper c = true -> is_ascii c = true.
Proof.
  unfold is_upper, is_ascii, utf8.between, utf8.RuneSelf.
  rewrite andb_true_iff, !N.leb_le, N.ltb_lt. lia.
Qed.

Lemma EncodeRune_ToLower_no_upper r :
  all_bytes (fun c => negb (is_upper c)) (utf8.EncodeRune (unicode.ToLower r)) = true.
Proof.
  destruct (N.le_gt_cases (unicode.ToLower r) 0x7F) as [Hle|Hgt].
  - unfold utf8.EncodeRune.
    replace (unicode.ToLower r <=? 0x7F) with true by (symmetry; by apply N.leb_le).
    simpl. rewrite andb_true_r. unfold is_upper, utf8.byte.
    rewrite N_ascii_embedding by lia.
    by rewrite unicode_ToLower_not_upper.
  - eapply all_bytes_impl; [|by apply EncodeRune_high].
    intros c Hc. simpl in Hc. apply negb_true_iff in Hc. apply negb_true_iff.
    destruct (is_upper c) eqn:E; [|done].
    apply is_upper_ascii in E. congruence.
Qed.

(** The lower-cased string has no capital ASCII letter. *)
Lemma ToLower_no_upper s :
  all_bytes (fun c => negb (is_upper c)) (strings.ToLower s) = true.
Proof.
  unfold strings.ToLower, strings.Map.
  induction (utf8.runes s) as [|r l IH]; simpl; [done|].
  rewrite all_bytes_app, IH, EncodeRune_ToLower_no_upper. done.
Qed.

(** A string of ASCII bytes without capital letters is its own lower
    case. *)
Lemma ToLower_ascii_id s :
  all_bytes (fun c => is_ascii c && negb (is_upper c)) s = true ->
  strings.ToLower s = s.
Proof.
  unfold strings.ToLower, strings.Map.
  induction s as [|c s IH]; [done|].
  simpl. intros [[Hc Hu]%andb_true_iff Hs]%andb_true_iff.
  unfold is_ascii in Hc. rewrite Hc. simpl.
  apply negb_true_iff in Hu. unfold is_upper in Hu.
  apply N.ltb_lt in Hc. unfold utf8.RuneSelf in Hc.
  rewrite unicode_ToLower_ascii by done.
  unfold utf8.EncodeRune.
  replace (N_of_ascii c <=? 0x7F) with true by (symmetry; apply N.leb_le; lia).
  simpl. unfold utf8.byte. rewrite ascii_N_embedding. f_equal. auto.
Qed.

(** ** The replacer *)

Lemma lookup_pair_In oldnew s old new :
  strings.lookup_pair oldnew s = Some (old, new) -> In (old, new) oldnew.
Proof.
  induction oldnew as [|[o n] l IH]; simpl; [done|].
  destruct (String.prefix o s).
  - intros [= -> ->]. by left.
  - intros H. right. auto.
Qed.

Lemma Replace_from_all (p : ascii -> bool) oldnew :
  (forall old new, In (old, new) oldnew -> all_bytes p new = true) ->
  forall s skip, all_bytes p s = true ->
  all_bytes p (strings.Replace_from oldnew skip s) = true.
Proof.
  intros Hnew. induction s as [|c s IH]; intros skip; [done|].
  intros [Hc Hs]%andb_true_iff.
  cbn [strings.Replace_from]. destruct skip as [|k]; [|by apply IH].
  destruct (strings.lookup_pair oldnew (String c s)) as [[old new]|] eqn:E.
  - rewrite all_bytes_app, IH by done.
    rewrite (Hnew old new); [done|]. by eapply lookup_pair_In.
  - simpl. rewrite Hc. simpl. by apply IH.
Qed.

Lemma lookup_pair_umlauts_one c :
  strings.lookup_pair umlauts (String c "") = None.
Proof.
  unfold umlauts. simpl.
  repeat (destruct (ascii_dec _ c); simpl); done.
Qed.

Lemma prefix_nil s : String.prefix "" s = true.
Proof. by destruct s. Qed.

Lemma lookup_pair_umlauts c c' rest :
  strings.lookup_pair umlauts (String c (String c' rest)) =
  if Ascii.eqb c "195" then
    if Ascii.eqb c' "164" then Some ("ä", "ae")
    else if Ascii.eqb c' "182" then Some ("ö", "oe")
    else if Ascii.eqb c' "188" then Some ("ü", "ue")
    else if Ascii.eqb c' "159" then Some ("ß", "ss")
    else None
  else None.
Proof.
  unfold umlauts. simpl. rewrite !prefix_nil.
  destruct (Ascii.eqb_spec c "195") as [->|Hc].
  - simpl.
    repeat match goal with
           | |- context [ascii_dec ?a c'] =>
             destruct (ascii_dec a c') as [<-|?]; simpl; [done|]
           end.
    repeat match goal with
           | |- context [Ascii.eqb c' ?a] =>
             destruct (Ascii.eqb_spec c' a) as [->|?]; [done|]
           end.
    done.
  - repeat (destruct (ascii_dec _ c) as [<-|?]; simpl; [done|]). done.
Qed.

Lemma Replace_from_skip oldnew k c s :
  strings.Replace_from oldnew (S k) (String c s) = strings.Replace_from oldnew k s.
Proof. done. Qed.

Lemma Replace_from_cons oldnew c s :
  strings.Replace_from oldnew 0 (String c s) =
  match strings.lookup_pair oldnew (String c s) with
  | Some (old, new) =>
    new +:+ strings.Replace_from oldnew (String.length old - 1)%nat s
  | None => String c (strings.Replace_from oldnew 0%nat s)
  end.
Proof. done. Qed.

Lemma transliterate_cons c c' rest :
  transliterate (String c (String c' rest)) =
  if Ascii.eqb c "195" then
    if Ascii.eqb c' "164" then "ae" +:+ transliterate rest
    else if Ascii.eqb c' "182" then "oe" +:+ transliterate rest
    else if Ascii.eqb c' "188" then "ue" +:+ transliterate rest
    else if Ascii.eqb c' "159" then "ss" +:+ transliterate rest
    else String c (transliterate (String c' rest))
  else String c (transliterate (String c' rest)).
Proof. done. Qed.

(** The replacer of [TitleUrl] is the transliteration of the four
    letters. *)
Lemma Replace_umlauts_transliterate s :
  strings.Replace umlauts s = transliterate s.
Proof.
  unfold strings.Replace.
  cut (strings.Replace_from umlauts 0 s = transliterate s /\
       forall c, strings.Replace_from umlauts 0 (String c s) = transliterate (String c s));
    [tauto|].
  induction s as [|c' s [IH1 IH2]].
  - split; [done|]. intros c. rewrite Replace_from_cons.
    by rewrite lookup_pair_umlauts_one.
  - split; [apply IH2|]. intros c.
    rewrite Replace_from_cons, transliterate_cons, lookup_pair_umlauts.
    destruct (Ascii.eqb c "195"); [|by rewrite IH2].
    repeat match goal with
           | |- context [Ascii.eqb c' ?a] =>
             destruct (Ascii.eqb c' a);
               [cbn [String.length Nat.sub]; rewrite Replace_from_skip, IH1; done|]
           end.
    by rewrite IH2.
Qed.

Lemma transliterate_ascii_id s :
  all_bytes is_ascii s = true -> transliterate s = s.
Proof.
  induction s as [|c s IH]; [done|].
  intros [Hc Hs]%andb_true_iff.
  destruct s as [|c' s']; [done|]. rewrite transliterate_cons.
  destruct (Ascii.eqb_spec c "195") as [->|_]; [done|].
  f_equal. auto.
Qed.

Lemma transliterate_all (p : ascii -> bool) s :
  all_bytes p "aeouss" = true ->
  all_bytes p s = true -> all_bytes p (transliterate s) = true.
Proof.
  intros Hp. rewrite <- Replace_umlauts_transliterate.
  apply Replace_from_all. intros old new Hin.
  simpl in Hp. repeat (apply andb_true_iff in Hp as [? Hp]).
  unfold umlauts in Hin. simpl in Hin.
  repeat (destruct Hin as [[= <- <-]|Hin]; [simpl; by repeat (apply andb_true_iff; split)|]).
  done.
Qed.

(** ** The three patterns *)

Lemma ReplaceAll_strip_from pend s :
  regexp.ReplaceAll_from re_strip "" pend s = strip_outside s.
Proof.
  assert (forall pend, regexp.flush re_strip "" pend = "") as Hflush
      by (by intros [|??]).
  revert pend. induction s as [|c s IH]; intros pend; [apply Hflush|].
  cbn [regexp.ReplaceAll_from]. unfold strip_outside. cbn [filter_bytes].
  change (regexp.cls re_strip c) with (negb (url.is_alnum c || is_space c)).
  destruct (url.is_alnum c || is_space c); simpl negb; cbv iota.
  - by rewrite Hflush, IH.
  - destruct (regexp.full re_strip pend); [rewrite Hflush|]; apply IH.
Qed.

(** Deleting the matches of the first pattern keeps exactly the letters,
    digits and spaces. *)
Lemma ReplaceAll_strip s :
  regexp.ReplaceAllString re_strip s "" = strip_outside s.
Proof. apply ReplaceAll_strip_from. Qed.

Lemma ReplaceAll_spaces_pend c pend s :
  regexp.ReplaceAll_from re_spaces "-" (String c pend) s =
  regexp.ReplaceAll_from re_spaces "-" " " s.
Proof.
  revert c pend. induction s as [|c0 s IH]; intros c pend; [done|].
  cbn [regexp.ReplaceAll_from].
  change (regexp.cls re_spaces c0) with (is_space c0).
  destruct (is_space c0); [|done].
  change (regexp.full re_spaces _) with false. cbv iota.
  norm_app. etrans; [apply IH|symmetry; apply IH].
Qed.

Lemma ReplaceAll_spaces_cons c s :
  regexp.ReplaceAllString re_spaces (String c s) "-" =
  if is_space c then
    if starts_with is_space s
    then regexp.ReplaceAllString re_spaces s "-"
    else String "-" (regexp.ReplaceAllString re_spaces s "-")
  else String c (regexp.ReplaceAllString re_spaces s "-").
Proof.
  unfold regexp.ReplaceAllString. cbn [regexp.ReplaceAll_from].
  change (regexp.cls re_spaces c) with (is_space c).
  destruct (is_space c); [|done].
  change (regexp.full re_spaces _) with false. cbv iota. norm_app.
  destruct s as [|c' s']; [done|].
  cbn [starts_with regexp.ReplaceAll_from].
  change (regexp.cls re_spaces c') with (is_space c').
  destruct (is_space c'); [|done].
  change (regexp.full re_spaces _) with false. cbv iota. norm_app.
  etrans; [apply ReplaceAll_spaces_pend|symmetry; apply ReplaceAll_spaces_pend].
Qed.

Lemma runs_head c s : exists n r, runs (String c s) = (c, S n) :: r.
Proof.
  revert c. induction s as [|c' s IH]; intros c; [by exists 0%nat, []|].
  destruct (IH c') as (n & r & E). cbn [runs] in *. rewrite E.
  destruct (Ascii.eqb c c'); eauto.
Qed.

Lemma runs_cons c c' s :
  runs (String c (String c' s)) =
  match runs (String c' s) with
  | (_, n) :: r =>
    if Ascii.eqb c c' then (c, S n) :: r else (c, 1%nat) :: runs (String c' s)
  | [] => []
  end.
Proof.
  destruct (runs_head c' s) as (n & r & E).
  change (runs (String c (String c' s))) with
      (match runs (String c' s) with
       | (c', n) :: r =>
         if Ascii.eqb c c' then (c, S n) :: r else (c, 1%nat) :: (c', n) :: r
       | [] => [(c, 1%nat)]
       end).
  by rewrite E.
Qed.


Lemma spaces_to_hyphen_cons c s :
  spaces_to_hyphen (String c s) =
  if is_space c then
    if starts_with is_space s
    then spaces_to_hyphen s
    else String "-" (spaces_to_hyphen s)
  else String c (spaces_to_hyphen s).
Proof.
  unfold spaces_to_hyphen, map_runs.
  destruct s as [|c' s].
  { simpl. by destruct (is_space c). }
  rewrite runs_cons. destruct (runs_head c' s) as (n & r & E). rewrite E.
  cbn [starts_with].
  destruct (Ascii.eqb_spec c c') as [->|Hne].
  - cbn [map]. destruct (is_space c'); done.
  - cbn [map]. destruct (is_space c) eqn:Ec; [|done].
    destruct (is_space c') eqn:Ec'; [|done].
    apply bool_decide_eq_true in Ec, Ec'. congruence.
Qed.

(** The second pattern turns each run of spaces into one hyphen. *)
Lemma ReplaceAll_spaces s :
  regexp.ReplaceAllString re_spaces s "-" = spaces_to_hyphen s.
Proof.
  induction s as [|c s IH]; [done|].
  by rewrite ReplaceAll_spaces_cons, spaces_to_hyphen_cons, IH.
Qed.

Lemma spaces_to_hyphen_all (p : ascii -> bool) s :
  p "-"%char = true ->
  all_bytes p s = true -> all_bytes p (spaces_to_hyphen s) = true.
Proof.
  intros Hp. induction s as [|c s IH]; [done|].
  intros [Hc Hs]%andb_true_iff. rewrite spaces_to_hyphen_cons.
  destruct (is_space c); [destruct (starts_with is_space s)|]; simpl;
    rewrite ?Hp, ?Hc; auto.
Qed.

Lemma spaces_to_hyphen_no_space s :
  all_bytes (fun c => negb (is_space c)) (spaces_to_hyphen s) = true.
Proof.
  induction s as [|c s IH]; [done|].
  rewrite spaces_to_hyphen_cons.
  destruct (is_space c) eqn:E; [destruct (starts_with is_space s)|]; simpl;
    rewrite ?E; auto.
Qed.

Lemma spaces_to_hyphen_id s :
  all_bytes (fun c => negb (is_space c)) s = true -> spaces_to_hyphen s = s.
Proof.
  induction s as [|c s IH]; [done|].
  intros [Hc Hs]%andb_true_iff. rewrite spaces_to_hyphen_cons.
  apply negb_true_iff in Hc. rewrite Hc. f_equal. auto.
Qed.

(** After the second pattern no two hyphens are adjacent, when there was no
    hyphen before it. *)
Lemma spaces_to_hyphen_no_double s :
  all_bytes (fun c => negb (is_hyphen c)) s = true ->
  no_double_hyphen (spaces_to_hyphen s) = true /\
  (starts_with is_hyphen (spaces_to_hyphen s) = true ->
   starts_with is_space s = true).
Proof.
  induction s as [|c s IH]; [done|].
  intros [Hc Hs]%andb_true_iff. destruct (IH Hs) as [IH1 IH2].
  rewrite spaces_to_hyphen_cons. apply negb_true_iff in Hc.
  destruct (is_space c) eqn:Esp.
  - destruct (starts_with is_space s) eqn:Est.
    { split; [done|]. intros _. exact Esp. }
    split; [|intros _; exact Esp].
    cbn [no_double_hyphen]. rewrite IH1, andb_true_r.
    destruct (spaces_to_hyphen s) as [|c1 s1] eqn:E1; [done|].
    cbn [starts_with] in IH2. destruct (is_hyphen c1); [|done].
    specialize (IH2 eq_refl). congruence.
  - split; [|cbn [starts_with]; congruence]. cbn [no_double_hyphen].
    rewrite IH1, andb_true_r, Hc. by destruct (spaces_to_hyphen s).
Qed.


Lemma ReplaceAll_hyphens_id_from s :
  no_double_hyphen s = true ->
  regexp.ReplaceAll_from re_hyphens "-" "" s = s /\
  (starts_with is_hyphen s = false ->
   regexp.ReplaceAll_from re_hyphens "-" "-" s = String "-" s).
Proof.
  induction s as [|c s IH]; [done|].
  cbn [no_double_hyphen]. intros [Hc Hs]%andb_true_iff.
  destruct (IH Hs) as [IH1 IH2].
  cbn [regexp.ReplaceAll_from starts_with].
  change (regexp.cls re_hyphens c) with (is_hyphen c).
  destruct (is_hyphen c) eqn:Eh.
  - split; [|done]. change (regexp.full re_hyphens "") with false. cbv iota.
    norm_app. apply bool_decide_eq_true in Eh as ->.
    rewrite IH2; [done|]. destruct s as [|c' s']; [done|].
    simpl in *. by destruct (is_hyphen c').
  - split; intros; simpl; by rewrite IH1.
Qed.

(** On a string without two hyphens in a row the third pattern has no
    match. *)
Lemma ReplaceAll_hyphens_id s :
  no_double_hyphen s = true ->
  regexp.ReplaceAllString re_hyphens s "-" = s.
Proof. intros H. by apply ReplaceAll_hyphens_id_from. Qed.

Lemma PathEscape_id s :
  all_bytes is_slug_byte s = true -> url.PathEscape s = s.
Proof.
  induction s as [|c s IH]; [done|].
  intros [Hc Hs]%andb_true_iff. cbn [url.PathEscape].
  replace (url.shouldEscape c) with false; [by rewrite IH|].
  clear -Hc. unfold url.shouldEscape.
  unfold is_slug_byte, is_lower_alnum in Hc. unfold url.is_alnum.
  destruct (utf8.between 0x61 0x7A _); [done|].
  destruct (utf8.between 0x30 0x39 _); [by rewrite orb_true_r|].
  simpl in Hc. apply bool_decide_eq_true in Hc as ->. done.
Qed.

(** ** [TitleUrl] *)

Lemma filter_bytes_keeps (p q : ascii -> bool) s :
  all_bytes q s = true -> all_bytes q (filter_bytes p s) = true.
Proof.
  induction s as [|c s IH]; [done|]. cbn [all_bytes filter_bytes].
  intros [Hc Hs]%andb_true_iff. destruct (p c); cbn [all_bytes]; rewrite ?Hc; auto.
Qed.

Lemma filter_bytes_ext (p q r : ascii -> bool) s :
  (forall c, r c = true -> p c = q c) ->
  all_bytes r s = true -> filter_bytes p s = filter_bytes q s.
Proof.
  intros Hpq. induction s as [|c s IH]; [done|]. cbn [all_bytes filter_bytes].
  intros [Hc Hs]%andb_true_iff. rewrite (Hpq _ Hc), IH by done. done.
Qed.

Lemma all_bytes_and (p q : ascii -> bool) s :
  all_bytes p s = true -> all_bytes q s = true ->
  all_bytes (fun c => p c && q c) s = true.
Proof.
  induction s as [|c s IH]; [done|]. cbn [all_bytes].
  intros [-> Hp]%andb_true_iff [-> Hq]%andb_true_iff. simpl. auto.
Qed.

Lemma strip_outside_no_hyphen s :
  all_bytes (fun c => negb (is_hyphen c)) (strip_outside s) = true.
Proof.
  eapply all_bytes_impl; [|apply filter_bytes_all].
  intros c Hc. simpl in Hc. apply negb_true_iff.
  destruct (is_hyphen c) eqn:E; [|done].
  apply bool_decide_eq_true in E as ->. done.
Qed.

Lemma stripped_no_double s :
  no_double_hyphen (spaces_to_hyphen (strip_outside s)) = true.
Proof. apply spaces_to_hyphen_no_double, strip_outside_no_hyphen. Qed.

Lemma slug_byte_cases c :
  (url.is_alnum c || is_space c) && negb (is_upper c) = true ->
  is_slug_byte c || is_space c = true.
Proof.
  unfold url.is_alnum, is_upper, is_slug_byte, is_lower_alnum.
  destruct (utf8.between 0x61 0x7A _); [done|].
  destruct (utf8.between 0x30 0x39 _); [by rewrite orb_true_r|].
  destruct (utf8.between 0x41 0x5A _); [done|].
  simpl. intros ->%andb_true_iff%proj1. by rewrite orb_true_r.
Qed.

Lemma stripped_slug_bytes s :
  all_bytes is_slug_byte
    (spaces_to_hyphen (strip_outside (transliterate (strings.ToLower s)))) = true.
Proof.
  set (t := transliterate _).
  assert (all_bytes (fun c => negb (is_upper c)) t = true) as Ht
      by (apply transliterate_all; [done|apply ToLower_no_upper]).
  assert (all_bytes (fun c => is_slug_byte c || is_space c) (strip_outside t) = true) as Hs.
  { eapply all_bytes_impl; [apply slug_byte_cases|].
    apply all_bytes_and; [apply filter_bytes_all|by apply filter_bytes_keeps]. }
  eapply all_bytes_impl;
    [|apply all_bytes_and;
      [apply (spaces_to_hyphen_all _ _ eq_refl Hs)|apply spaces_to_hyphen_no_space]].
  intros c. cbv beta. destruct (is_space c); [by rewrite andb_false_r|].
  by rewrite orb_false_r, andb_true_r.
Qed.

(** The last two steps of [TitleUrl] never change anything: what reaches
    them has no two hyphens in a row and nothing to escape. *)
Lemma TitleUrl_four_steps title :
  TitleUrl title =
  spaces_to_hyphen (strip_outside (transliterate (strings.ToLower title))).
Proof.
  unfold TitleUrl.
  rewrite Replace_umlauts_transliterate, ReplaceAll_strip, ReplaceAll_spaces.
  rewrite ReplaceAll_hyphens_id by apply stripped_no_double.
  apply PathEscape_id, stripped_slug_bytes.
Qed.

(** A slug consists of [a-z0-9] and single hyphens. *)
Lemma TitleUrl_slug_bytes title : all_bytes is_slug_byte (TitleUrl title) = true.
Proof. rewrite TitleUrl_four_steps. apply stripped_slug_bytes. Qed.

Lemma TitleUrl_no_double title : no_double_hyphen (TitleUrl title) = true.
Proof. rewrite TitleUrl_four_steps. apply stripped_no_double. Qed.

Lemma slug_byte_ascii c :
  is_slug_byte c = true -> is_ascii c && negb (is_upper c) = true.
Proof.
  unfold is_slug_byte, is_lower_alnum, is_ascii, is_upper, utf8.between, utf8.RuneSelf.
  intros [[H|H]%orb_true_iff|H]%orb_true_iff;
    [apply andb_true_iff in H as [H1 H2]; apply N.leb_le in H1, H2..|
     apply bool_decide_eq_true in H as ->; done];
    apply andb_true_iff; split;
      [apply N.ltb_lt; lia|apply negb_true_iff, andb_false_iff; rewrite !N.leb_gt; lia|
       apply N.ltb_lt; lia|apply negb_true_iff, andb_false_iff; rewrite !N.leb_gt; lia].
Qed.

(** On a string of slug bytes, [TitleUrl] deletes the hyphens and nothing
    else. *)
Lemma TitleUrl_on_slug x :
  all_bytes is_slug_byte x = true ->
  TitleUrl x = filter_bytes (fun c => negb (is_hyphen c)) x.
Proof.
  intros Hx. rewrite TitleUrl_four_steps.
  rewrite ToLower_ascii_id
    by (eapply all_bytes_impl; [apply slug_byte_ascii|done]).
  rewrite transliterate_ascii_id.
  2:{ eapply all_bytes_impl; [|exact Hx].
      intros c Hc%slug_byte_ascii. by apply andb_true_iff in Hc as [-> _]. }
  unfold strip_outside.
  rewrite (filter_bytes_ext _ (fun c => negb (is_hyphen c)) is_slug_byte x); [|..|done].
  - apply spaces_to_hyphen_id.
    eapply all_bytes_impl; [|apply filter_bytes_keeps, Hx].
    intros c Hc. apply negb_true_iff.
    destruct (is_space c) eqn:E; [|done].
    apply bool_decide_eq_true in E as ->. done.
  - intros c Hc. unfold is_slug_byte, is_lower_alnum in Hc. unfold url.is_alnum.
    destruct (is_hyphen c) eqn:E.
    + apply bool_decide_eq_true in E as ->. done.
    + rewrite orb_false_r in Hc. simpl.
      destruct (utf8.between 0x61 0x7A _); [done|].
      simpl in Hc. rewrite Hc. by rewrite orb_true_r.
Qed.

Lemma TitleUrl_twice title :
  TitleUrl (TitleUrl title) =
  filter_bytes (fun c => negb (is_hyphen c)) (TitleUrl title).
Proof. apply TitleUrl_on_slug, TitleUrl_slug_bytes. Qed.

Lemma TitleUrl_punct title : all_bytes is_punct title = true -> TitleUrl title = "".
Proof.
  intros H. rewrite TitleUrl_four_steps.
  assert (forall c, is_punct c = true -> is_upper c = false) as Hup.
  { intros c [_ Hc%negb_true_iff]%andb_true_iff.
    unfold url.is_alnum, is_upper in *.
    destruct (utf8.between 0x41 0x5A _); [|done].
    by rewrite orb_true_r in Hc. }
  rewrite ToLower_ascii_id.
  2:{ eapply all_bytes_impl; [|exact H]. intros c Hc. rewrite (Hup c Hc).
      by apply andb_true_iff in Hc as [-> _]. }
  rewrite transliterate_ascii_id.
  2:{ eapply all_bytes_impl; [|exact H]. by intros c [-> _]%andb_true_iff. }
  unfold strip_outside. rewrite filter_bytes_none; [done|].
  eapply all_bytes_impl; [|exact H]. by intros c [_ ->]%andb_true_iff.
Qed.

Local Close Scope N_scope.

(** ** [GetTitleUrl] *)

Lemma candidate_shift t n : candidate (t +:+ "x") n = candidate t (S n).
Proof. induction n as [|n IH]; [done|]. cbn [candidate] in *. by rewrite IH. Qed.

Lemma candidate_length t n :
  String.length (candidate t n) = String.length t + n.
Proof.
  induction n as [|n IH]; cbn [candidate]; [lia|].
  rewrite string_length_app, IH. simpl. lia.
Qed.

Lemma candidate_inj t i j : candidate t i = candidate t j -> i = j.
Proof.
  intros H%(f_equal String.length). rewrite !candidate_length in H. lia.
Qed.

(** The loop leaves at the first candidate that the map does not hold. *)
Lemma GetTitleUrl_loop_Some fuel m t r :
  GetTitleUrl_loop fuel m t = Some r ->
  exists n, n < fuel /\ r = candidate t n /\ index m r = false /\
            forall i, i < n -> index m (candidate t i) = true.
Proof.
  revert t. induction fuel as [|fuel IH]; intros t; [done|].
  cbn [GetTitleUrl_loop]. destruct (index m t) eqn:E.
  - intros (n & Hn & -> & Hr & Hlt)%IH. exists (S n).
    rewrite candidate_shift in *. repeat split; [lia|done|].
    intros [|i] Hi; [done|]. rewrite <- candidate_shift. apply Hlt. lia.
  - intros [= <-]. exists 0. repeat split; [lia|done|]. intros i Hi. lia.
Qed.

Lemma GetTitleUrl_loop_None fuel m t :
  GetTitleUrl_loop fuel m t = None ->
  forall i, i < fuel -> index m (candidate t i) = true.
Proof.
  revert t. induction fuel as [|fuel IH]; intros t; [intros _ i Hi; lia|].
  cbn [GetTitleUrl_loop]. destruct (index m t) eqn:E; [|done].
  intros H [|i] Hi; [done|]. rewrite <- candidate_shift. apply (IH _ H). lia.
Qed.

Lemma GetTitleUrl_loop_least fuel m t n :
  index m (candidate t n) = false ->
  (forall i, i < n -> index m (candidate t i) = true) ->
  n < fuel ->
  GetTitleUrl_loop fuel m t = Some (candidate t n).
Proof.
  revert t n. induction fuel as [|fuel IH]; intros t n Hn Hlt Hf; [lia|].
  cbn [GetTitleUrl_loop]. destruct n as [|n].
  - cbn [candidate] in Hn. by rewrite Hn.
  - pose proof (Hlt 0 ltac:(lia)) as H0. cbn [candidate] in H0. rewrite H0.
    rewrite <- candidate_shift. apply IH.
    + by rewrite candidate_shift.
    + intros i Hi. rewrite candidate_shift. apply Hlt. lia.
    + lia.
Qed.

Lemma index_true_dom (m : gmap string bool) k : index m k = true -> k ∈ dom m.
Proof.
  unfold index. intros H. apply elem_of_dom.
  destruct (m !! k); [by eexists|done].
Qed.

(** One test more than the map has keys is enough: the candidates differ
    from one another, and the map cannot hold more of them than it has
    keys. *)
Lemma GetTitleUrl_loop_enough (m : gmap string bool) t :
  is_Some (GetTitleUrl_loop (S (size m)) m t).
Proof.
  destruct (GetTitleUrl_loop (S (size m)) m t) eqn:E; [by eexists|].
  exfalso.
  pose proof (GetTitleUrl_loop_None _ _ _ E) as Hall.
  set (l := candidate t <$> seq 0 (S (size m))).
  assert (NoDup l) as Hnd.
  { apply NoDup_fmap_2_strong; [|apply NoDup_seq].
    intros i j _ _. apply candidate_inj. }
  assert (l ⊆+ elements (dom m)) as Hsub.
  { apply NoDup_submseteq; [done|]. intros k Hk.
    apply list_elem_of_fmap in Hk as (i & -> & Hi).
    apply elem_of_elements, index_true_dom, Hall.
    apply elem_of_seq in Hi. lia. }
  apply submseteq_length in Hsub.
  change (length (elements (dom m))) with (size (dom m)) in Hsub.
  rewrite size_dom in Hsub. subst l. rewrite length_fmap, length_seq in Hsub. lia.
Qed.

(** [GetTitleUrl] returns the slug of the title followed by the least
    number of x for which the map does not hold the result. *)
Lemma GetTitleUrl_least title (m : gmap string bool) :
  exists n,
    GetTitleUrl_loop (S (size m)) m (TitleUrl title)
      = Some (candidate (TitleUrl title) n) /\
    GetTitleUrl title m = candidate (TitleUrl title) n /\
    index m (candidate (TitleUrl title) n) = false /\
    forall i, i < n -> index m (candidate (TitleUrl title) i) = true.
Proof.
  unfold GetTitleUrl.
  destruct (GetTitleUrl_loop_enough m (TitleUrl title)) as [r Hr].
  rewrite Hr. apply GetTitleUrl_loop_Some in Hr as (n & _ & -> & Hn & Hlt).
  by exists n.
Qed.

Lemma GetTitleUrl_unique title (m : gmap string bool) n :
  index m (candidate (TitleUrl title) n) = false ->
  (forall i, i < n -> index m (candidate (TitleUrl title) i) = true) ->
  GetTitleUrl title m = candidate (TitleUrl title) n.
Proof.
  intros Hn Hlt. destruct (GetTitleUrl_least title m) as (n' & _ & -> & Hn' & Hlt').
  f_equal. destruct (Nat.lt_trichotomy n n') as [H|[H|H]]; [|done|].
  - specialize (Hlt' _ H). congruence.
  - specialize (Hlt _ H). congruence.
Qed.

Lemma GetTitleUrl_fresh title (m : gmap string bool) :
  index m (GetTitleUrl title m) = false.
Proof. by destruct (GetTitleUrl_least title m) as (n & _ & -> & Hn & _). Qed.

Lemma index_insert (m : gmap string bool) k k' :
  index (<[k := true]> m) k' = if decide (k = k') then true else index m k'.
Proof. unfold index. rewrite lookup_insert. by case_decide. Qed.

(** Repeated calls: when the map holds the candidates below [k] and none
    from [k] on, the calls return the candidates [k], [k+1], ... *)
Lemma calls_chain_from title n :
  forall (m : gmap string bool) k,
    (forall i, i < k -> index m (candidate (TitleUrl title) i) = true) ->
    (forall i, k <= i -> index m (candidate (TitleUrl title) i) = false) ->
    (calls n title m).1 = candidate (TitleUrl title) <$> seq k n.
Proof.
  induction n as [|n IH]; intros m k Hlt Hge; [done|].
  cbn [calls]. rewrite (GetTitleUrl_unique title m k) by auto.
  specialize (IH (<[candidate (TitleUrl title) k := true]> m) (S k)).
  destruct (calls n title _) as [l m'] eqn:E. cbn [fst] in *.
  cbn [seq fmap list_fmap]. f_equal. apply IH.
  - intros i Hi. rewrite index_insert. case_decide; [done|]. apply Hlt.
    assert (i ≠ k) by congruence. lia.
  - intros i Hi. rewrite index_insert. case_decide as Hc.
    + apply candidate_inj in Hc. lia.
    + apply Hge. lia.
Qed.

(** Repeated calls on any map: the numbers of x appended grow strictly. *)
Lemma calls_increasing title n :
  forall (m : gmap string bool) k,
    (forall i, i < k -> index m (candidate (TitleUrl title) i) = true) ->
    exists ks,
      (calls n title m).1 = candidate (TitleUrl title) <$> ks /\
      StronglySorted lt ks /\ Forall (le k) ks.
Proof.
  induction n as [|n IH]; intros m k Hlt.
  { exists []. repeat split; constructor. }
  cbn [calls].
  destruct (GetTitleUrl_least title m) as (j & _ & Hj & Hfresh & Hbelow).
  rewrite Hj.
  assert (k <= j) as Hkj.
  { destruct (Nat.le_gt_cases k j) as [|Hgt]; [done|].
    specialize (Hlt _ Hgt). congruence. }
  destruct (IH (<[candidate (TitleUrl title) j := true]> m) (S j)) as (ks & E & Hs & Hf).
  { intros i Hi. rewrite index_insert. case_decide; [done|]. apply Hbelow.
    assert (i ≠ j) by congruence. lia. }
  destruct (calls n title _) as [l m'] eqn:Ec. cbn [fst] in *. subst l.
  exists (j :: ks). repeat split.
  - constructor; [done|]. eapply Forall_impl; [exact Hf|]. intros; simpl in *; lia.
  - constructor; [done|]. eapply Forall_impl; [exact Hf|]. intros; simpl in *; lia.
Qed.

(** When the slug has no hyphen, appending x and making a slug of the result
    is appending x. *)
Lemma TitleUrl_append_x t :
  all_bytes (fun c => is_slug_byte c && negb (is_hyphen c)) t = true ->
  TitleUrl (t +:+ "x") = t +:+ "x".
Proof.
  intros Ht. rewrite TitleUrl_on_slug.
  - apply filter_bytes_id. rewrite all_bytes_app, andb_true_iff. split; [|done].
    eapply all_bytes_impl; [|exact Ht]. by intros c [_ ?]%andb_true_iff.
  - rewrite all_bytes_app, andb_true_iff. split; [|done].
    eapply all_bytes_impl; [|exact Ht]. by intros c [? _]%andb_true_iff.
Qed.

Lemma uniqueSlug_spec_loop_no_hyphen fuel (m : gmap string bool) t :
  all_bytes (fun c => is_slug_byte c && negb (is_hyphen c)) t = true ->
  uniqueSlug_spec_loop fuel m t = GetTitleUrl_loop fuel m t.
Proof.
  revert t. induction fuel as [|fuel IH]; intros t Ht; [done|].
  cbn [uniqueSlug_spec_loop GetTitleUrl_loop].
  destruct (index m t); [|done].
  rewrite TitleUrl_append_x by done. apply IH.
  rewrite all_bytes_app, Ht. done.
Qed.

(** ** The slug generator and the design document *)

(** C1, as stated, fails: with the slug "my-show" taken, [GetTitleUrl]
    returns "my-showx", while appending x and making a slug of the result
    again, as the document describes, gives "myshowx". *)
Lemma GetTitleUrl_not_reslugified :
  GetTitleUrl "My Show" {["my-show" := true]} = "my-showx" /\
  uniqueSlug_spec "My Show" {["my-show" := true]} = Some "myshowx".
Proof. split; vm_compute; reflexivity. Qed.

(** C1, amended. [GetTitleUrl] computes the slug of the title and, while
    the candidate is in the map, appends a letter x to it, without making a
    slug of the candidate again: the loop ends within one test more than the
    map has keys, and the result is the slug followed by the least number of
    x for which the map does not hold the result. It is the result of the
    algorithm of the document whenever the slug of the title has no
    hyphen. *)
Theorem GetTitleUrl_appends_x title (usedSlugs : gmap string bool) :
  exists n,
    GetTitleUrl_loop (S (size usedSlugs)) usedSlugs (TitleUrl title)
      = Some (candidate (TitleUrl title) n) /\
    GetTitleUrl title usedSlugs = candidate (TitleUrl title) n /\
    index usedSlugs (candidate (TitleUrl title) n) = false /\
    (forall i, i < n -> index usedSlugs (candidate (TitleUrl title) i) = true) /\
    (all_bytes (fun c => negb (is_hyphen c)) (TitleUrl title) = true ->
     uniqueSlug_spec title usedSlugs = Some (GetTitleUrl title usedSlugs)).
Proof.
  destruct (GetTitleUrl_least title usedSlugs) as (n & Hloop & Hget & Hn & Hlt).
  exists n. repeat split; try done.
  intros Hno. unfold uniqueSlug_spec.
  rewrite uniqueSlug_spec_loop_no_hyphen; [by rewrite Hloop, Hget|].
  apply all_bytes_and; [apply TitleUrl_slug_bytes|done].
Qed.

Lemma GetTitleUrl_appends_x_witness :
  uniqueSlug_spec "News" {["news" := true]}
  = Some (GetTitleUrl "News" {["news" := true]}).
Proof.
  destruct (GetTitleUrl_appends_x "News" {["news" := true]})
    as (n & _ & _ & _ & _ & H).
  apply H. vm_compute. reflexivity.
Defined.

(** C2. [GetTitleUrl] never returns a key that the map holds; repeated
    calls with one title, each result being added to the map, return the slug
    followed by strictly more and more x, and starting from a map that holds
    none of them they return the slug, the slug with one x, with two x, and so
    on; a title of punctuation only, or the empty title, has the empty slug
    and takes part like any other: "x" at the first collision, "xx" at the
    second. *)
Theorem GetTitleUrl_chain title (usedSlugs : gmap string bool) :
  index usedSlugs (GetTitleUrl title usedSlugs) = false /\
  (forall n, exists ks,
      (calls n title usedSlugs).1 = candidate (TitleUrl title) <$> ks /\
      StronglySorted lt ks) /\
  (forall n,
      (forall i, index usedSlugs (candidate (TitleUrl title) i) = false) ->
      (calls n title usedSlugs).1 = candidate (TitleUrl title) <$> seq 0 n) /\
  (all_bytes is_punct title = true ->
   TitleUrl title = "" /\
   GetTitleUrl title ∅ = "" /\
   GetTitleUrl title {["" := true]} = "x" /\
   GetTitleUrl title (<["x" := true]> {["" := true]}) = "xx").
Proof.
  split; [apply GetTitleUrl_fresh|]. split; [|split].
  - intros n. destruct (calls_increasing title n usedSlugs 0) as (ks & E & Hs & _).
    { intros i Hi. lia. }
    by exists ks.
  - intros n Hnone. apply calls_chain_from; [intros i Hi; lia|auto].
  - intros Hp. pose proof (TitleUrl_punct title Hp) as E. split; [done|].
    split; [|split].
    + rewrite (GetTitleUrl_unique title _ 0); rewrite E; [done..|].
      intros i Hi. lia.
    + rewrite (GetTitleUrl_unique title _ 1); rewrite E; [done..|].
      intros [|i] Hi; [done|lia].
    + rewrite (GetTitleUrl_unique title _ 2); rewrite E; [done..|].
      intros [|[|i]] Hi; [done..|lia].
Qed.

Lemma GetTitleUrl_chain_witness :
  (calls 3 "?!" ∅).1 = [""; "x"; "xx"] /\
  GetTitleUrl "?!" (<["x" := true]> {["" := true]}) = "xx".
Proof.
  destruct (GetTitleUrl_chain "?!" ∅) as (_ & _ & Hchain & Hpunct).
  destruct (Hpunct eq_refl) as (E & _ & _ & Hxx).
  split; [|exact Hxx].
  rewrite (Hchain 3); [by rewrite E|].
  intros i. unfold index. by rewrite lookup_empty.
Defined.

(** C3, as stated, fails: "my-show" is the slug of "My Show", and its own
    slug is "myshow". *)
Lemma TitleUrl_not_idempotent :
  TitleUrl "My Show" = "my-show" /\ TitleUrl (TitleUrl "My Show") = "myshow".
Proof. split; vm_compute; reflexivity. Qed.

(** C3, amended. The slug of a slug is the slug without its hyphens, so
    that [TitleUrl] leaves one of its results unchanged exactly when that
    result has no hyphen. *)
Theorem TitleUrl_idempotent_iff title :
  TitleUrl (TitleUrl title)
  = filter_bytes (fun c => negb (is_hyphen c)) (TitleUrl title) /\
  (TitleUrl (TitleUrl title) = TitleUrl title <->
   all_bytes (fun c => negb (is_hyphen c)) (TitleUrl title) = true).
Proof.
  split; [apply TitleUrl_twice|]. rewrite TitleUrl_twice. split.
  - intros E. rewrite <- E. apply filter_bytes_all.
  - apply filter_bytes_id.
Qed.

Lemma TitleUrl_idempotent_iff_witness :
  TitleUrl (TitleUrl "Größe!") = TitleUrl "Größe!".
Proof.
  apply (proj2 (proj2 (TitleUrl_idempotent_iff "Größe!"))).
  vm_compute. reflexivity.
Defined.


(** ** [processEpisodes] *)

Lemma tick_0 st : tick 0 st = st.
Proof. destruct st. unfold tick. simpl. by rewrite N.add_0_r. Qed.

Lemma tick_S n st :
  tick (N.of_nat n) (tick 1 st) = tick (N.of_nat (S n)) st.
Proof. destruct st. unfold tick. simpl. f_equal. lia. Qed.

Lemma collect_eq existingEpisodes podcast items :
  forall newEpisodes st,
    collect existingEpisodes podcast items newEpisodes st =
    let created := new_episodes existingEpisodes podcast (clock st) items in
    (Ok (newEpisodes ++ created)%list, tick (N.of_nat (length created)) st).
Proof.
  induction items as [|e items IH]; intros acc st; cbn [collect new_episodes].
  { cbv zeta. by rewrite app_nil_r, tick_0. }
  unfold has_ext. destruct (gofeed.Item.ITunesExt e) as [ext|]; [|apply IH].
  cbn [andb]. destruct (negb (index existingEpisodes (gofeed.Item.GUID e))); [|apply IH].
  unfold bind at 1. cbn [time_Now]. rewrite IH. cbv zeta.
  change (mkState (podcasts st) (episodes st) (next_id st) (clock st + 1)%N
                  (existingPodcastFeeds st) (podcastTitles st) (log st))
    with (tick 1 st).
  change (clock (tick 1 st)) with (clock st + 1)%N.
  cbn [length]. by rewrite tick_S, <- app_assoc.
Qed.

(** What [BulkWrite] has written of a batch. *)
Lemma BulkWrite_eq w operations st :
  BulkWrite w operations st =
  let written := match BulkWrite_err w with
                 | Some (n, _) => take n operations
                 | None => operations
                 end in
  (match BulkWrite_err w with
   | Some (_, e) => Err e
   | None => Ok tt
   end,
   mkState (podcasts st) (episodes st ++ assign_IDs (next_id st) written)%list
           (next_id st + N.of_nat (length written))%N (clock st)
           (existingPodcastFeeds st) (podcastTitles st) (log st)).
Proof. done. Qed.

(** [processEpisodes] depends on the feed through its items only, and on
    those through the episodes that the loop creates. *)
Lemma processEpisodes_eq w feed podcast st :
  processEpisodes w feed podcast st =
  match Find_err w with
  | Some e => (Err ("error fetching existing episodes: " +:+ e), st)
  | None =>
    match All_err w with
    | Some e => (Err ("error decoding existing episodes: " +:+ e), st)
    | None =>
      let existingEpisodes :=
          guid_set (List.filter
                      (fun e => field_is (Podcast.PodlistUrl podcast)
                                         (Episode.PodcastUrl e))
                      (episodes st)) in
      let created := new_episodes existingEpisodes podcast (clock st)
                                  (gofeed.Feed.Items feed) in
      let st1 := tick (N.of_nat (length created)) st in
      if (0 <? length created)%nat then
        match BulkWrite w created st1 with
        | (Ok _, st2) =>
          log_Printf (Inserted (length created) (Podcast.Title podcast)) st2
        | (Err e, st2) => (Err ("error inserting new episodes: " +:+ e), st2)
        end
      else log_Printf (NoNewEpisodes (Podcast.Title podcast)) st1
    end
  end.
Proof.
  unfold processEpisodes, bind, Errorf, Find, All.
  destruct (Find_err w); [done|]. destruct (All_err w); [done|].
  rewrite collect_eq. cbv zeta. rewrite app_nil_l.
  destruct (0 <? length _)%nat; [|done].
  rewrite BulkWrite_eq. cbv zeta. by destruct (BulkWrite_err w) as [[??]|].
Qed.

Lemma processEpisodes_Items w feed feed' podcast st :
  gofeed.Feed.Items feed = gofeed.Feed.Items feed' ->
  processEpisodes w feed podcast st = processEpisodes w feed' podcast st.
Proof. intros E. by rewrite !processEpisodes_eq, E. Qed.

Lemma new_episodes_filter existingEpisodes podcast items :
  forall now,
    new_episodes existingEpisodes podcast now (List.filter has_ext items) =
    new_episodes existingEpisodes podcast now items.
Proof.
  induction items as [|e items IH]; intros now; [done|].
  cbn [List.filter new_episodes]. destruct (has_ext e) eqn:E.
  - cbn [new_episodes]. rewrite E, !IH. done.
  - apply IH.
Qed.

Lemma new_episodes_origin existingEpisodes podcast items :
  forall now,
    Forall (fun e => exists item t,
                item ∈ items /\ has_ext item = true /\
                index existingEpisodes (gofeed.Item.GUID item) = false /\
                e = createEpisode t item podcast)
           (new_episodes existingEpisodes podcast now items).
Proof.
  induction items as [|i items IH]; intros now; [constructor|].
  cbn [new_episodes].
  assert (forall l,
             Forall (fun e => exists item t,
                         item ∈ items /\ has_ext item = true /\
                         index existingEpisodes (gofeed.Item.GUID item) = false /\
                         e = createEpisode t item podcast) l ->
             Forall (fun e => exists item t,
                         item ∈ i :: items /\ has_ext item = true /\
                         index existingEpisodes (gofeed.Item.GUID item) = false /\
                         e = createEpisode t item podcast) l) as Hweak.
  { intros l Hl. eapply Forall_impl; [exact Hl|]. intros e (item & t & Hin & H).
    exists item, t. split; [by right|done]. }
  destruct (has_ext i && negb (index existingEpisodes (gofeed.Item.GUID i))) eqn:E.
  - apply andb_true_iff in E as [Hext Hidx%negb_true_iff].
    constructor; [|apply Hweak, IH].
    exists i, now. split; [by left|done].
  - apply Hweak, IH.
Qed.

Lemma with_episode_ID_twice id id' e :
  with_episode_ID id (with_episode_ID id' e) = with_episode_ID id e.
Proof. by destruct e. Qed.

Lemma createEpisode_ID t item podcast :
  with_episode_ID NilObjectID (createEpisode t item podcast)
  = createEpisode t item podcast.
Proof. unfold createEpisode. by repeat case_match. Qed.

(** The store changes nothing but the identifier of what it is given. *)
Lemma assign_IDs_content l :
  forall id,
    with_episode_ID NilObjectID <$> assign_IDs id l
    = with_episode_ID NilObjectID <$> l.
Proof.
  induction l as [|e l IH]; intros id; [done|].
  cbn [assign_IDs fmap list_fmap]. f_equal; [|apply IH].
  destruct (Episode.ID e =? NilObjectID)%N; [|done].
  apply with_episode_ID_twice.
Qed.

(** The episodes that one [processEpisodes] adds to the store. *)
Lemma processEpisodes_added w feed podcast st :
  exists added,
    episodes (processEpisodes w feed podcast st).2 = (episodes st ++ added)%list /\
    Forall (fun e => exists item t,
                item ∈ gofeed.Feed.Items feed /\ has_ext item = true /\
                index (guid_set (List.filter
                                   (fun e => field_is (Podcast.PodlistUrl podcast)
                                                      (Episode.PodcastUrl e))
                                   (episodes st)))
                      (gofeed.Item.GUID item) = false /\
                with_episode_ID NilObjectID e = createEpisode t item podcast)
           added.
Proof.
  rewrite processEpisodes_eq.
  destruct (Find_err w); [exists []; by rewrite app_nil_r|].
  destruct (All_err w); [exists []; by rewrite app_nil_r|].
  cbv zeta.
  set (existingEpisodes := guid_set _).
  set (created := new_episodes _ _ _ _).
  set (Q := fun e : Episode.t => exists item t,
                item ∈ gofeed.Feed.Items feed /\ has_ext item = true /\
                index existingEpisodes (gofeed.Item.GUID item) = false /\
                e = createEpisode t item podcast).
  assert (Forall Q created) as Hcreated by apply new_episodes_origin.
  assert (forall id n, Forall (Q ∘ with_episode_ID NilObjectID)
                              (assign_IDs id (take n created))) as Htake.
  { intros id n. apply Forall_fmap. rewrite assign_IDs_content.
    apply Forall_fmap, Forall_take. eapply Forall_impl; [exact Hcreated|].
    intros e (item & t & ? & ? & ? & ->). exists item, t.
    by rewrite createEpisode_ID. }
  destruct (0 <? length created)%nat; [|exists []; by rewrite app_nil_r].
  rewrite BulkWrite_eq. cbv zeta.
  destruct (BulkWrite_err w) as [[n ?]|].
  - exists (assign_IDs (next_id st) (take n created)). split; [done|apply Htake].
  - exists (assign_IDs (next_id st) created). split; [done|].
    rewrite <- (firstn_all created). apply Htake.
Qed.

(** [processEpisodes] touches neither the podcasts nor the two maps. *)
Lemma processEpisodes_frame w feed podcast st :
  let st' := (processEpisodes w feed podcast st).2 in
  podcasts st' = podcasts st /\
  existingPodcastFeeds st' = existingPodcastFeeds st /\
  podcastTitles st' = podcastTitles st.
Proof.
  rewrite processEpisodes_eq.
  destruct (Find_err w); [done|]. destruct (All_err w); [done|].
  cbv zeta. destruct (0 <? length _)%nat; [|done].
  rewrite BulkWrite_eq. cbv zeta. by destruct (BulkWrite_err w) as [[??]|].
Qed.

Lemma processEpisodes_Ok w feed podcast st :
  Find_err w = None -> All_err w = None -> BulkWrite_err w = None ->
  (processEpisodes w feed podcast st).1 = Ok tt.
Proof.
  intros E1 E2 E3. rewrite processEpisodes_eq, E1, E2. cbv zeta.
  destruct (0 <? length _)%nat; [|done].
  rewrite BulkWrite_eq, E3. done.
Qed.

(** ** The reconciler and the design document *)

Lemma createEpisode_Guid t item podcast :
  Episode.Guid (createEpisode t item podcast) = gofeed.Item.GUID item /\
  Episode.Title (createEpisode t item podcast) = gofeed.Item.Title item /\
  Episode.PodcastUrl (createEpisode t item podcast) = Podcast.PodlistUrl podcast.
Proof. unfold createEpisode. by repeat case_match. Qed.

Lemma with_episode_ID_fields id e :
  Episode.Guid (with_episode_ID id e) = Episode.Guid e /\
  Episode.Title (with_episode_ID id e) = Episode.Title e /\
  Episode.PodcastUrl (with_episode_ID id e) = Episode.PodcastUrl e /\
  Episode.PodlistUrl (with_episode_ID id e) = Episode.PodlistUrl e.
Proof. by destruct e. Qed.

Lemma GetTitleUrl_empty title : GetTitleUrl title ∅ = TitleUrl title.
Proof.
  apply (GetTitleUrl_unique title ∅ 0); [done|]. intros i Hi. lia.
Qed.

(** An item whose GUID the loaded set holds is skipped, and so is an item
    without the extension block. *)
Lemma processEpisodes_skips w feed podcast st :
  exists added,
    episodes (processEpisodes w feed podcast st).2 = (episodes st ++ added)%list /\
    Forall (fun e => exists item,
                item ∈ gofeed.Feed.Items feed /\
                gofeed.Item.ITunesExt item ≠ None /\
                Episode.Guid e = gofeed.Item.GUID item /\
                Episode.Title e = gofeed.Item.Title item /\
                index (guid_set (List.filter
                                   (fun e => field_is (Podcast.PodlistUrl podcast)
                                                      (Episode.PodcastUrl e))
                                   (episodes st)))
                      (Episode.Guid e) = false)
           added.
Proof.
  destruct (processEpisodes_added w feed podcast st) as (added & E & H).
  exists added. split; [done|]. eapply Forall_impl; [exact H|].
  intros e (item & t & Hin & Hext & Hidx & Hc). exists item.
  destruct (with_episode_ID_fields NilObjectID e) as (<- & <- & _).
  rewrite Hc. destruct (createEpisode_Guid t item podcast) as (-> & -> & _).
  repeat split; try done.
  unfold has_ext in Hext. by destruct (gofeed.Item.ITunesExt item).
Qed.

(** C5: the claim is broken by the code. A feed whose two items carry the
    extension block and the same GUID "g1", fetched on an empty store: both
    are written, under the same podcast. The set of known GUIDs is read from
    the store before the loop and never extended in it. *)
Theorem processEpisodes_inserts_duplicate_guid :
  let feed := sample_feed "My Show" "https://a.example/feed.xml"
                [sample_item "One" "g1" true; sample_item "One again" "g1" true] in
  let st := (processFeedURL (serving feed) "https://a.example/feed.xml" empty_run).2 in
  (fun e => (Episode.PodcastUrl e, Episode.Guid e)) <$> episodes st
  = [("my-show", "g1"); ("my-show", "g1")].
Proof. vm_compute. reflexivity. Qed.

(** C6. An episode that [processEpisodes] writes comes from an item of the
    feed that carries the extension block; the items without it are passed
    over as if they were not in the feed, and when the store does not fail
    the function returns no error. *)
Theorem processEpisodes_requires_extension w feed podcast st :
  (exists added,
      episodes (processEpisodes w feed podcast st).2 = (episodes st ++ added)%list /\
      Forall (fun e => exists item,
                  item ∈ gofeed.Feed.Items feed /\
                  gofeed.Item.ITunesExt item ≠ None /\
                  Episode.Guid e = gofeed.Item.GUID item /\
                  Episode.Title e = gofeed.Item.Title item)
             added) /\
  processEpisodes w feed podcast st
  = processEpisodes w (with_Items (List.filter has_ext (gofeed.Feed.Items feed)) feed)
                    podcast st /\
  (Find_err w = None -> All_err w = None -> BulkWrite_err w = None ->
   (processEpisodes w feed podcast st).1 = Ok tt).
Proof.
  split; [|split].
  - destruct (processEpisodes_skips w feed podcast st) as (added & E & H).
    exists added. split; [done|]. eapply Forall_impl; [exact H|].
    intros e (item & ? & ? & ? & ? & _). by exists item.
  - rewrite !processEpisodes_eq. destruct feed; cbn [with_Items gofeed.Feed.Items].
    by rewrite new_episodes_filter.
  - apply processEpisodes_Ok.
Qed.

Lemma processEpisodes_requires_extension_witness :
  (processEpisodes
     (serving (sample_feed "My Show" "u" []))
     (sample_feed "My Show" "u"
                  [sample_item "One" "g1" false; sample_item "Two" "g2" true])
     (createNewPodcast 0%N (sample_feed "My Show" "u" []) "my-show")
     empty_run).1 = Ok tt.
Proof.
  apply (proj2 (proj2 (processEpisodes_requires_extension _ _ _ _)));
    reflexivity.
Defined.

(** C8: the claim is broken by the code. [createEpisode] asks [GetTitleUrl]
    for a slug against a fresh, empty map, so that the slug of an episode is
    the slug of its title whatever the other episodes of the podcast are: two
    items with the title "Intro" and the GUIDs "g1" and "g2" are both written
    with the slug "intro". *)
Theorem createEpisode_slug_not_unique :
  (forall now e podcast,
      Episode.PodlistUrl (createEpisode now e podcast)
      = TitleUrl (gofeed.Item.Title e)) /\
  let feed := sample_feed "My Show" "https://a.example/feed.xml"
                [sample_item "Intro" "g1" true; sample_item "Intro" "g2" true] in
  let st := (processFeedURL (serving feed) "https://a.example/feed.xml" empty_run).2 in
  (fun e => (Episode.PodcastUrl e, Episode.Guid e, Episode.PodlistUrl e))
    <$> episodes st
  = [("my-show", "g1", "intro"); ("my-show", "g2", "intro")].
Proof.
  split; [|vm_compute; reflexivity].
  intros now e podcast. rewrite <- GetTitleUrl_empty.
  unfold createEpisode. by repeat case_match.
Qed.

(** ** [updatePodcast] *)

Lemma set_field_immutable key v p :
  key ∉ ({[ "title"; "podlistUrl"; "feed" ]} : gset string) ->
  immutable (bson.set_field key v p) = immutable p.
Proof.
  intros Hkey. destruct p. unfold bson.set_field.
  assert (String.eqb key "title" = false) as ->
      by (apply String.eqb_neq; set_solver).
  assert (String.eqb key "podlistUrl" = false) as ->
      by (apply String.eqb_neq; set_solver).
  assert (String.eqb key "feed" = false) as ->
      by (apply String.eqb_neq; set_solver).
  destruct v; repeat case_match; done.
Qed.

(** A key that is among the immutable ones does change the record: the
    model of the store would show a forbidden write. *)
Lemma set_field_title p :
  Podcast.Title (bson.apply_set {["title" := bson.VString "Other"]} p) = "Other".
Proof.
  destruct p. vm_compute. reflexivity.
Qed.

Lemma apply_set_immutable (set : bson.M) p :
  dom set ⊆ mutable_keys -> immutable (bson.apply_set set p) = immutable p.
Proof.
  unfold bson.apply_set.
  apply (map_fold_weak_ind
           (fun r (m : gmap string bson.Value) =>
              dom m ⊆ mutable_keys -> immutable r = immutable p)); [done|].
  intros key v m r Hnone IH Hdom. rewrite dom_insert_L in Hdom.
  rewrite set_field_immutable; [apply IH; set_solver|].
  assert (key ∈ mutable_keys) as Hin by set_solver.
  intros Hbad. unfold mutable_keys in Hin.
  repeat (apply elem_of_union in Hin as [Hin|Hin]);
    apply elem_of_singleton in Hin; subst key; revert Hbad;
    rewrite !elem_of_union, !elem_of_singleton; intros [[?|?]|?]; done.
Qed.

Lemma update_set_keys now feed : dom (update_set now feed) ⊆ mutable_keys.
Proof.
  unfold update_set, mutable_keys.
  destruct (gofeed.Feed.ITunesExt feed); rewrite !dom_insert_L, dom_empty_L;
    apply elem_of_subseteq; intros key;
    rewrite !elem_of_union, !elem_of_singleton, elem_of_empty; tauto.
Qed.

Lemma update_first_immutable id f l :
  (forall p, immutable (f p) = immutable p) ->
  immutable <$> update_first id f l = immutable <$> l.
Proof.
  intros Hf. induction l as [|p l IH]; [done|]. cbn [update_first].
  destruct (Podcast.ID p =? id)%N; cbn [fmap list_fmap]; [by rewrite Hf|].
  f_equal. apply IH.
Qed.

Lemma updatePodcast_eq w podcast feed st :
  updatePodcast w podcast feed st =
  match UpdateOne_err w with
  | None =>
    (Ok tt,
     mkState (update_first (Podcast.ID podcast)
                           (bson.apply_set (update_set (clock st) feed))
                           (podcasts st))
             (episodes st) (next_id st) (clock st + 1)%N
             (existingPodcastFeeds st) (podcastTitles st) (log st))
  | Some err =>
    (Ok tt,
     mkState (podcasts st) (episodes st) (next_id st) (clock st + 1)%N
             (existingPodcastFeeds st) (podcastTitles st)
             (log st ++ [UpdateError (Podcast.Title podcast) err])%list)
  end.
Proof.
  unfold updatePodcast, bind, time_Now, UpdateOne.
  by destruct (UpdateOne_err w).
Qed.

Lemma updatePodcast_immutable w podcast feed st :
  let st' := (updatePodcast w podcast feed st).2 in
  immutable <$> podcasts st' = immutable <$> podcasts st /\
  episodes st' = episodes st /\
  existingPodcastFeeds st' = existingPodcastFeeds st /\
  podcastTitles st' = podcastTitles st.
Proof.
  rewrite updatePodcast_eq. destruct (UpdateOne_err w); [done|].
  cbn [snd podcasts]. split; [|done]. apply update_first_immutable.
  intros p. apply apply_set_immutable, update_set_keys.
Qed.

(** ** [processFeed] *)

Lemma processFeed_update_eq w feed st :
  index (existingPodcastFeeds st) (gofeed.Feed.FeedLink feed) = true ->
  processFeed w feed st =
  let pTitleUrl := GetTitleUrl (gofeed.Feed.Title feed) (podcastTitles st) in
  let st1 := (log_Printf (UpdatingPodcast pTitleUrl) st).2 in
  match FindOne w (gofeed.Feed.FeedLink feed) st1 with
  | (Err e, st2) => (Err ("error fetching existing podcast: " +:+ e), st2)
  | (Ok podcast, st2) =>
    Errorf "error processing episodes: " (processEpisodes w feed podcast)
           (updatePodcast w podcast feed st2).2
  end.
Proof.
  intros Hidx. unfold processFeed, bind, get, Errorf, ret, log_Printf.
  rewrite Hidx. cbv zeta. cbn [snd].
  destruct (FindOne w _ _) as [[podcast|e] st2]; [|done].
  pose proof (updatePodcast_eq w podcast feed st2) as E.
  destruct (updatePodcast w podcast feed st2) as [r st3].
  assert (r = Ok tt) as -> by (destruct (UpdateOne_err w); congruence).
  done.
Qed.

Lemma processFeed_create_eq w feed st :
  index (existingPodcastFeeds st) (gofeed.Feed.FeedLink feed) = false ->
  processFeed w feed st =
  let pTitleUrl := GetTitleUrl (gofeed.Feed.Title feed) (podcastTitles st) in
  let podcast := createNewPodcast (clock st) feed pTitleUrl in
  let st1 := tick 1 (log_Printf (CreatingPodcast pTitleUrl) st).2 in
  match InsertOne_err w with
  | Some e => (Err ("error inserting podcast: " +:+ e), st1)
  | None =>
    Errorf "error processing episodes: " (processEpisodes w feed podcast)
           (set_podcastTitles pTitleUrl
              (set_existingPodcastFeeds (gofeed.Feed.FeedLink feed)
                 (InsertOne w podcast st1).2).2).2
  end.
Proof.
  intros Hidx. unfold processFeed. unfold bind at 1. cbn [get].
  rewrite Hidx. cbv zeta.
  unfold bind, Errorf, InsertOne, log_Printf, time_Now, tick,
    set_existingPodcastFeeds, set_podcastTitles, ret.
  cbn [fst snd podcasts episodes next_id clock existingPodcastFeeds
           podcastTitles log].
  by destruct (InsertOne_err w).
Qed.

Lemma FindOne_state w feedLink st : (FindOne w feedLink st).2 = st.
Proof. unfold FindOne. by repeat case_match. Qed.

Lemma Errorf_state {A} prefix (m : M A) st : (Errorf prefix m st).2 = (m st).2.
Proof. unfold Errorf. by repeat case_match. Qed.

(** C7. The [$set] document of [updatePodcast] has keys among categories,
    link, description, subtitle, author, image and updated only;
    [updatePodcast], and the whole of [processFeed] when the feed URL is
    known, leave the identifier, the title, the slug and the feed URL of
    every podcast record as they were. *)
Theorem updatePodcast_keeps_immutable w feed st :
  (forall now, dom (update_set now feed) ⊆ mutable_keys) /\
  (forall podcast,
      immutable <$> podcasts (updatePodcast w podcast feed st).2
      = immutable <$> podcasts st) /\
  (index (existingPodcastFeeds st) (gofeed.Feed.FeedLink feed) = true ->
   immutable <$> podcasts (processFeed w feed st).2 = immutable <$> podcasts st).
Proof.
  split; [intros now; apply update_set_keys|]. split.
  - intros podcast. apply updatePodcast_immutable.
  - intros Hidx. rewrite processFeed_update_eq by done. cbv zeta.
    destruct (FindOne w _ _) as [[podcast|e] st2] eqn:EF;
      apply (f_equal snd) in EF; rewrite FindOne_state in EF;
      cbn [snd] in EF; subst st2; [|done].
    rewrite Errorf_state.
    destruct (processEpisodes_frame w feed podcast
                (updatePodcast w podcast feed
                   (log_Printf (UpdatingPodcast
                      (GetTitleUrl (gofeed.Feed.Title feed) (podcastTitles st))) st).2).2)
      as (-> & _).
    by destruct (updatePodcast_immutable w podcast feed
                (log_Printf (UpdatingPodcast
                   (GetTitleUrl (gofeed.Feed.Title feed) (podcastTitles st))) st).2)
      as (-> & _).
Qed.

Lemma updatePodcast_keeps_immutable_witness :
  let feed := sample_feed "Renamed Show" "https://a.example/feed.xml" [] in
  let st := (processFeedURL
               (serving (sample_feed "My Show" "https://a.example/feed.xml" []))
               "https://a.example/feed.xml" empty_run).2 in
  immutable <$> podcasts (processFeed (serving feed) feed st).2
  = [(1%N, "My Show", "my-show", "https://a.example/feed.xml")].
Proof.
  cbv zeta.
  rewrite (proj2 (proj2 (updatePodcast_keeps_immutable _ _ _))).
  - vm_compute. reflexivity.
  - vm_compute. reflexivity.
Defined.

(** C9. For a non-empty [url], [LoadFeed] succeeds exactly when the parser
    does, and the feed it returns has a non-empty [FeedLink]: the one of
    the parsed feed when that is not empty, the feed being then the parsed
    one, and [url] when it is empty; in both cases every other field of the
    feed is the one of the parsed feed, and the state changes by one line of
    the log only. A parser error is returned under the prefix "feed error". *)
Theorem LoadFeed_FeedLink w url st :
  url ≠ "" ->
  match ParseURLWithContext w url with
  | Ok parsed =>
    exists feed st',
      LoadFeed w url st = (Ok feed, st') /\
      gofeed.Feed.FeedLink feed ≠ "" /\
      (gofeed.Feed.FeedLink parsed = "" -> gofeed.Feed.FeedLink feed = url) /\
      (gofeed.Feed.FeedLink parsed ≠ "" ->
       gofeed.Feed.FeedLink feed = gofeed.Feed.FeedLink parsed) /\
      (gofeed.Feed.FeedLink parsed = "" -> feed = with_FeedLink url parsed) /\
      (gofeed.Feed.FeedLink parsed ≠ "" -> feed = parsed) /\
      gofeed.Feed.Title feed = gofeed.Feed.Title parsed /\
      gofeed.Feed.Description feed = gofeed.Feed.Description parsed /\
      gofeed.Feed.Link feed = gofeed.Feed.Link parsed /\
      gofeed.Feed.Categories feed = gofeed.Feed.Categories parsed /\
      gofeed.Feed.PublishedParsed feed = gofeed.Feed.PublishedParsed parsed /\
      gofeed.Feed.ITunesExt feed = gofeed.Feed.ITunesExt parsed /\
      gofeed.Feed.Items feed = gofeed.Feed.Items parsed /\
      st' = mkState (podcasts st) (episodes st) (next_id st) (clock st)
                    (existingPodcastFeeds st) (podcastTitles st)
                    (log st ++ [FeedLoaded url])%list
  | Err err => LoadFeed w url st = (Err ("feed error: " +:+ err), st)
  end.
Proof.
  intros Hurl. unfold LoadFeed.
  destruct (ParseURLWithContext w url) as [parsed|err]; [|done].
  destruct parsed as [title descr link feedLink cats pub ext items].
  cbn [gofeed.Feed.FeedLink gofeed.Feed.Title gofeed.Feed.Description
       gofeed.Feed.Link gofeed.Feed.Categories gofeed.Feed.PublishedParsed
       gofeed.Feed.ITunesExt gofeed.Feed.Items].
  destruct feedLink as [|c rest].
  - eexists _, _. split; [reflexivity|].
    cbn [String.length Nat.leb with_FeedLink gofeed.Feed.FeedLink
         gofeed.Feed.Title gofeed.Feed.Description gofeed.Feed.Link
         gofeed.Feed.Categories gofeed.Feed.PublishedParsed
         gofeed.Feed.ITunesExt gofeed.Feed.Items].
    repeat split; try done.
  - eexists _, _. split; [reflexivity|].
    cbn [String.length Nat.leb gofeed.Feed.FeedLink
         gofeed.Feed.Title gofeed.Feed.Description gofeed.Feed.Link
         gofeed.Feed.Categories gofeed.Feed.PublishedParsed
         gofeed.Feed.ITunesExt gofeed.Feed.Items].
    repeat split; try done.
Qed.

Lemma LoadFeed_FeedLink_witness :
  exists feed st',
    LoadFeed (serving (sample_feed "My Show" "" [sample_item "One" "g1" true]))
             "https://a.example/feed.xml" empty_run = (Ok feed, st') /\
    gofeed.Feed.FeedLink feed = "https://a.example/feed.xml" /\
    gofeed.Feed.Title feed = "My Show" /\
    gofeed.Feed.Items feed = [sample_item "One" "g1" true].
Proof.
  destruct (LoadFeed_FeedLink
              (serving (sample_feed "My Show" "" [sample_item "One" "g1" true]))
              "https://a.example/feed.xml" empty_run)
    as (feed & st' & E & _ & Hsub & _ & _ & _ & Ht & _ & _ & _ & _ & _ & Hi & _);
    [discriminate|].
  exists feed, st'. split; [exact E|]. split; [exact (Hsub eq_refl)|].
  split; [exact Ht|exact Hi].
Defined.

(** C10. When the feed URL is not in the index, the feed URL and the new
    slug enter the two maps if and only if the insertion of the podcast
    succeeds: after a successful insertion the maps are the former ones with
    exactly these two entries added, whatever happens to the episodes; after
    a failed one [processFeed] returns that error and the maps, like the two
    collections, are the former ones. *)
Theorem processFeed_create_indices w feed st :
  index (existingPodcastFeeds st) (gofeed.Feed.FeedLink feed) = false ->
  let pTitleUrl := GetTitleUrl (gofeed.Feed.Title feed) (podcastTitles st) in
  let r := (processFeed w feed st).1 in
  let st' := (processFeed w feed st).2 in
  match InsertOne_err w with
  | None =>
    existingPodcastFeeds st'
    = <[gofeed.Feed.FeedLink feed := true]> (existingPodcastFeeds st) /\
    podcastTitles st' = <[pTitleUrl := true]> (podcastTitles st) /\
    index (existingPodcastFeeds st') (gofeed.Feed.FeedLink feed) = true /\
    index (podcastTitles st') pTitleUrl = true
  | Some err =>
    r = Err ("error inserting podcast: " +:+ err) /\
    existingPodcastFeeds st' = existingPodcastFeeds st /\
    podcastTitles st' = podcastTitles st /\
    index (existingPodcastFeeds st') (gofeed.Feed.FeedLink feed) = false /\
    index (podcastTitles st') pTitleUrl = false /\
    podcasts st' = podcasts st /\ episodes st' = episodes st
  end.
Proof.
  intros Hidx. cbv zeta. rewrite processFeed_create_eq by done. cbv zeta.
  destruct (InsertOne_err w) as [err|] eqn:EI.
  - cbn [fst snd]. repeat split; try done. apply GetTitleUrl_fresh.
  - set (podcast := createNewPodcast _ _ _). set (st3 := (set_podcastTitles _ _).2).
    destruct (processEpisodes_frame w feed podcast st3) as (_ & Hf & Ht).
    rewrite Errorf_state, Hf, Ht. subst st3. unfold InsertOne. rewrite EI.
    cbn [fst snd set_podcastTitles set_existingPodcastFeeds log_Printf tick
             existingPodcastFeeds podcastTitles].
    rewrite !index_insert. by rewrite !decide_True.
Qed.

Lemma processFeed_create_indices_witness :
  let feed := sample_feed "News" "https://b.example/feed.xml" [] in
  let st := (processFeedURL
               (serving (sample_feed "News" "https://a.example/feed.xml" []))
               "https://a.example/feed.xml" empty_run).2 in
  podcastTitles (processFeed (serving feed) feed st).2
  = <["newsx" := true]> (podcastTitles st).
Proof.
  cbv zeta.
  refine (proj1 (proj2 (processFeed_create_indices
                          (serving (sample_feed "News" "https://b.example/feed.xml" []))
                          _ _ _))).
  vm_compute. reflexivity.
Defined.


(** * Further properties of [main.go] *)

(** ** The batches of a run *)

Lemma batches_from_enough feeds :
  forall fuel i,
    length feeds - i < fuel ->
    exists bounds,
      batches_from fuel feeds i = Some bounds /\
      concat ((fun b => slice feeds b.1 b.2) <$> bounds) = drop i feeds /\
      Forall (fun b => 0 < length (slice feeds b.1 b.2) <= batchSize /\
                       (b.1 + batchSize <= length feeds ->
                        length (slice feeds b.1 b.2) = batchSize))
             bounds /\
      length bounds = (length feeds - i + (batchSize - 1)) / batchSize /\
      (forall k b, bounds !! k = Some b -> S k < length bounds ->
                   length (slice feeds b.1 b.2) = batchSize).
Proof.
  induction fuel as [|fuel IH]; intros i Hfuel; [lia|].
  cbn [batches_from]. destruct (Nat.ltb_spec i (length feeds)) as [Hi|Hi].
  - destruct (IH (i + batchSize)) as (rest & -> & Hcat & Hall & Hlen & Hfull);
      [unfold batchSize; lia|].
    eexists. split; [reflexivity|]. cbn [fmap list_fmap concat fst snd].
    assert (length (slice feeds i
                      (if (length feeds <? i + batchSize)%nat
                       then length feeds else i + batchSize))
            = Nat.min batchSize (length feeds - i)) as Hslice.
    { unfold slice. rewrite length_take, length_drop.
      destruct (Nat.ltb_spec (length feeds) (i + batchSize)); lia. }
    split; [|split; [|split]].
    + rewrite Hcat. unfold slice.
      destruct (Nat.ltb_spec (length feeds) (i + batchSize)) as [Hlt|Hge].
      * rewrite (drop_ge feeds (i + batchSize)) by lia.
        rewrite app_nil_r. apply take_ge. rewrite length_drop. lia.
      * replace (i + batchSize - i) with batchSize by lia.
        rewrite <- (drop_drop feeds batchSize i). apply take_drop.
    + constructor; [|done]. cbn [fst snd]. rewrite Hslice.
      unfold batchSize in *. lia.
    + cbn [length]. rewrite Hlen. unfold batchSize in *.
      destruct (Nat.le_gt_cases (i + 10) (length feeds)) as [Hle|Hgt].
      * replace (length feeds - i + (10 - 1))
          with (length feeds - (i + 10) + (10 - 1) + 1 * 10) by lia.
        rewrite Nat.div_add by lia. lia.
      * replace (length feeds - (i + 10)) with 0 by lia.
        rewrite (Nat.div_small (0 + _)) by lia.
        apply (Nat.div_unique _ _ _ (length feeds - i - 1)); lia.
    + intros [|k] b Hb Hk; cbn [length] in Hk.
      * injection Hb as <-. cbn [fst snd]. rewrite Hslice.
        destruct (Nat.le_gt_cases (i + batchSize) (length feeds)) as [Hle|Hgt];
          [unfold batchSize in *; lia|].
        exfalso. rewrite Hlen in Hk. unfold batchSize in *.
        replace (length feeds - (i + 10)) with 0 in Hk by lia.
        rewrite (Nat.div_small (0 + _)) in Hk by lia. lia.
      * apply (Hfull k b Hb). lia.
  - exists []. split; [done|]. split; [|split; [|split]].
    + by rewrite drop_ge by lia.
    + constructor.
    + replace (length feeds - i) with 0 by lia. done.
    + intros k b Hb. done.
Qed.

(** X1. The loop of [processFeedsInBatches] ends, and its slices, one
    after the other, are the list of feeds: no feed is left out, none is
    handed out twice, and the order is kept. *)
Theorem processFeedsInBatches_partition (feeds : list string) :
  exists batches,
    processFeedsInBatches feeds = Some batches /\ concat batches = feeds.
Proof.
  unfold processFeedsInBatches.
  destruct (batches_from_enough feeds (S (length feeds)) 0)
    as (bounds & -> & Hcat & _); [lia|].
  eexists. split; [reflexivity|]. by rewrite Hcat.
Qed.

(** X2. Every slice that [processFeedsInBatches] hands out holds between
    one and ten feeds, every slice but the last holds ten, and there are as
    many slices as the number of feeds divided by ten, rounded up: none for
    an empty list. *)
Theorem processFeedsInBatches_sizes (feeds : list string) :
  exists batches,
    processFeedsInBatches feeds = Some batches /\
    Forall (fun b => 1 <= length b <= 10) batches /\
    length batches = (length feeds + 9) / 10 /\
    (forall k b, batches !! k = Some b -> S k < length batches ->
                 length b = 10).
Proof.
  unfold processFeedsInBatches.
  destruct (batches_from_enough feeds (S (length feeds)) 0)
    as (bounds & -> & _ & Hall & Hlen & Hfull); [lia|].
  eexists. split; [reflexivity|]. split; [|split].
  - apply Forall_fmap. eapply Forall_impl; [exact Hall|].
    intros b [H _]. unfold batchSize in H. simpl. lia.
  - rewrite length_fmap, Hlen. unfold batchSize. f_equal. lia.
  - intros k b Hb Hk. rewrite length_fmap in Hk.
    rewrite list_lookup_fmap in Hb.
    destruct (bounds !! k) as [b0|] eqn:E; [|done]. injection Hb as <-.
    by apply (Hfull k).
Qed.

Lemma processFeedsInBatches_sizes_witness :
  exists batches b,
    processFeedsInBatches (replicate 12 "https://a.example/feed.xml") = Some batches /\
    batches !! 0 = Some b /\ length b = 10.
Proof.
  destruct (processFeedsInBatches_sizes (replicate 12 "https://a.example/feed.xml"))
    as (batches & E & _ & _ & Hfull).
  exists batches. vm_compute in E. injection E as <-.
  eexists. split; [reflexivity|]. split; [reflexivity|].
  apply (Hfull 0); [reflexivity|]. simpl. lia.
Defined.

(** ** The maps at the start of a run *)

Lemma loadExistingPodcasts_from podcasts :
  forall (maps : gmap string bool * gmap string bool) k,
    let loaded := fold_left (fun maps p =>
                               (<[Podcast.Feed p := true]> maps.1,
                                <[Podcast.PodlistUrl p := true]> maps.2))
                            podcasts maps in
    (index loaded.1 k = true <->
     index maps.1 k = true \/ k ∈ Podcast.Feed <$> podcasts) /\
    (index loaded.2 k = true <->
     index maps.2 k = true \/ k ∈ Podcast.PodlistUrl <$> podcasts).
Proof.
  induction podcasts as [|p l IH]; intros maps k; cbn [fold_left fmap list_fmap].
  { cbv zeta. rewrite !elem_of_nil. tauto. }
  cbv zeta. destruct (IH (<[Podcast.Feed p := true]> maps.1,
                          <[Podcast.PodlistUrl p := true]> maps.2) k) as [H1 H2].
  cbv zeta in H1, H2. cbn [fst snd] in H1, H2.
  rewrite H1, H2, !index_insert, !elem_of_cons.
  split; case_decide; subst; intuition congruence.
Qed.

Lemma loadExistingPodcasts_index podcasts k :
  (index (loadExistingPodcasts podcasts).1 k = true <->
   k ∈ Podcast.Feed <$> podcasts) /\
  (index (loadExistingPodcasts podcasts).2 k = true <->
   k ∈ Podcast.PodlistUrl <$> podcasts).
Proof.
  destruct (loadExistingPodcasts_from podcasts (∅, ∅) k) as [H1 H2].
  cbv zeta in H1, H2. unfold loadExistingPodcasts. rewrite H1, H2.
  cbn [fst snd]. unfold index. rewrite lookup_empty. cbn [default].
  split; split; auto; intros [?|?]; done.
Qed.

(** X3. The maps that [loadExistingPodcasts] builds hold, with the value
    true, exactly the feed URLs and exactly the slugs of the podcasts of the
    store. *)
Theorem loadExistingPodcasts_exact podcasts k :
  (index (loadExistingPodcasts podcasts).1 k = true <->
   k ∈ Podcast.Feed <$> podcasts) /\
  (index (loadExistingPodcasts podcasts).2 k = true <->
   k ∈ Podcast.PodlistUrl <$> podcasts).
Proof. apply loadExistingPodcasts_index. Qed.

Lemma loadExistingPodcasts_exact_witness :
  index (loadExistingPodcasts
           [createNewPodcast 0%N (sample_feed "News" "https://a.example/feed.xml" [])
                             "news"]).2 "news" = true.
Proof.
  apply (proj2 (loadExistingPodcasts_exact _ _)). vm_compute. by left.
Defined.

(** ** The podcasts of the store and the two maps *)

Lemma immutable_Feed (l : list Podcast.t) :
  Podcast.Feed <$> l = (fun x => x.2) <$> (immutable <$> l).
Proof. rewrite <- list_fmap_compose. by apply list_fmap_ext. Qed.

Lemma immutable_PodlistUrl (l : list Podcast.t) :
  Podcast.PodlistUrl <$> l = (fun x => x.1.2) <$> (immutable <$> l).
Proof. rewrite <- list_fmap_compose. by apply list_fmap_ext. Qed.

(** The update path changes neither the maps nor the immutable part of the
    podcasts. *)
Lemma processFeed_update_frame w feed st :
  index (existingPodcastFeeds st) (gofeed.Feed.FeedLink feed) = true ->
  let st' := (processFeed w feed st).2 in
  immutable <$> podcasts st' = immutable <$> podcasts st /\
  existingPodcastFeeds st' = existingPodcastFeeds st /\
  podcastTitles st' = podcastTitles st.
Proof.
  intros Hidx. rewrite processFeed_update_eq by done. cbv zeta.
  set (st1 := (log_Printf _ st).2).
  destruct (FindOne w _ _) as [[podcast|e] st2] eqn:EF;
    apply (f_equal snd) in EF; rewrite FindOne_state in EF;
    cbn [snd] in EF; subst st2; [|done].
  rewrite Errorf_state.
  destruct (processEpisodes_frame w feed podcast
              (updatePodcast w podcast feed st1).2) as (-> & -> & ->).
  by destruct (updatePodcast_immutable w podcast feed st1) as (-> & _ & -> & ->).
Qed.

Lemma createNewPodcast_ID now feed pTitleUrl :
  Podcast.ID (createNewPodcast now feed pTitleUrl) = NilObjectID.
Proof. unfold createNewPodcast. by repeat case_match. Qed.

(** The create path: a failed insertion changes neither the podcasts nor
    the maps; a successful one adds one podcast, with the feed URL of the feed
    and the new slug, and these two keys to the maps. *)
Lemma processFeed_create_frame w feed st :
  index (existingPodcastFeeds st) (gofeed.Feed.FeedLink feed) = false ->
  let pTitleUrl := GetTitleUrl (gofeed.Feed.Title feed) (podcastTitles st) in
  let st' := (processFeed w feed st).2 in
  match InsertOne_err w with
  | Some _ =>
    podcasts st' = podcasts st /\
    existingPodcastFeeds st' = existingPodcastFeeds st /\
    podcastTitles st' = podcastTitles st
  | None =>
    podcasts st' =
    (podcasts st ++ [with_ID (next_id st)
                             (createNewPodcast (clock st) feed pTitleUrl)])%list /\
    existingPodcastFeeds st'
    = <[gofeed.Feed.FeedLink feed := true]> (existingPodcastFeeds st) /\
    podcastTitles st' = <[pTitleUrl := true]> (podcastTitles st)
  end.
Proof.
  intros Hidx. cbv zeta. rewrite processFeed_create_eq by done. cbv zeta.
  destruct (InsertOne_err w) as [err|] eqn:EI; [done|].
  rewrite Errorf_state.
  set (podcast := createNewPodcast _ _ _). set (st3 := (set_podcastTitles _ _).2).
  destruct (processEpisodes_frame w feed podcast st3) as (-> & -> & ->).
  subst st3. unfold InsertOne. rewrite EI.
  cbn [snd set_podcastTitles set_existingPodcastFeeds podcasts
           existingPodcastFeeds podcastTitles tick log_Printf next_id].
  subst podcast. by rewrite createNewPodcast_ID.
Qed.

Lemma with_ID_fields id p :
  Podcast.Feed (with_ID id p) = Podcast.Feed p /\
  Podcast.PodlistUrl (with_ID id p) = Podcast.PodlistUrl p /\
  Podcast.ID (with_ID id p) = id.
Proof. by destruct p. Qed.

Lemma createNewPodcast_keys now feed pTitleUrl :
  Podcast.Feed (createNewPodcast now feed pTitleUrl) = gofeed.Feed.FeedLink feed /\
  Podcast.PodlistUrl (createNewPodcast now feed pTitleUrl) = pTitleUrl.
Proof. unfold createNewPodcast. by repeat case_match. Qed.

Lemma Forall_index_insert (m : gmap string bool) k l :
  Forall (fun k' => index m k' = true) l ->
  Forall (fun k' => index (<[k := true]> m) k' = true) l.
Proof.
  intros H. eapply Forall_impl; [exact H|]. intros k' Hk'.
  rewrite index_insert. by case_decide.
Qed.

Lemma not_elem_of_indexed (m : gmap string bool) k l :
  Forall (fun k' => index m k' = true) l -> index m k = false -> k ∉ l.
Proof.
  intros H Hk Hin. rewrite Forall_forall in H. specialize (H _ Hin). congruence.
Qed.

Lemma processFeed_keeps w feed st :
  indexed st -> distinct st ->
  indexed (processFeed w feed st).2 /\ distinct (processFeed w feed st).2.
Proof.
  intros [Hif Hit] [Hdf Hdt]. unfold indexed, distinct.
  destruct (index (existingPodcastFeeds st) (gofeed.Feed.FeedLink feed)) eqn:Hidx.
  - destruct (processFeed_update_frame w feed st Hidx) as (Himm & -> & ->).
    by rewrite !immutable_Feed, !immutable_PodlistUrl, Himm,
      <- !immutable_Feed, <- !immutable_PodlistUrl.
  - pose proof (processFeed_create_frame w feed st Hidx) as H. cbv zeta in H.
    destruct (InsertOne_err w); destruct H as (-> & -> & ->); [done|].
    rewrite !fmap_app. cbn [fmap list_fmap].
    destruct (with_ID_fields (next_id st)
                (createNewPodcast (clock st) feed
                   (GetTitleUrl (gofeed.Feed.Title feed) (podcastTitles st))))
      as (-> & -> & _).
    destruct (createNewPodcast_keys (clock st) feed
                (GetTitleUrl (gofeed.Feed.Title feed) (podcastTitles st)))
      as (-> & ->).
    repeat split.
    + apply Forall_app. split; [by apply Forall_index_insert|].
      constructor; [|done]. rewrite index_insert. by rewrite decide_True.
    + apply Forall_app. split; [by apply Forall_index_insert|].
      constructor; [|done]. rewrite index_insert. by rewrite decide_True.
    + apply NoDup_app. split; [done|]. split; [|apply NoDup_singleton].
      intros k Hk ->%list_elem_of_singleton. revert Hk.
      by apply (not_elem_of_indexed (existingPodcastFeeds st)).
    + apply NoDup_app. split; [done|]. split; [|apply NoDup_singleton].
      intros k Hk ->%list_elem_of_singleton. revert Hk.
      apply (not_elem_of_indexed (podcastTitles st)); [done|].
      apply GetTitleUrl_fresh.
Qed.

Lemma LoadFeed_state w url st :
  podcasts (LoadFeed w url st).2 = podcasts st /\
  episodes (LoadFeed w url st).2 = episodes st /\
  existingPodcastFeeds (LoadFeed w url st).2 = existingPodcastFeeds st /\
  podcastTitles (LoadFeed w url st).2 = podcastTitles st /\
  next_id (LoadFeed w url st).2 = next_id st /\
  clock (LoadFeed w url st).2 = clock st.
Proof. unfold LoadFeed. by destruct (ParseURLWithContext w url). Qed.

Lemma processFeedURL_keeps w url st :
  indexed st -> distinct st ->
  indexed (processFeedURL w url st).2 /\ distinct (processFeedURL w url st).2.
Proof.
  intros Hi Hd. unfold processFeedURL.
  destruct (LoadFeed_state w url st) as (Hp & _ & Hf & Ht & _).
  destruct (LoadFeed w url st) as [[feed|err] st1]; cbn [snd] in *.
  - assert (indexed st1 /\ distinct st1) as [Hi1 Hd1].
    { unfold indexed, distinct in *. by rewrite Hp, Hf, Ht. }
    destruct (processFeed_keeps w feed st1 Hi1 Hd1) as [Hi2 Hd2].
    destruct (processFeed w feed st1) as [[[]|err] st2]; [done|].
    by cbn [snd log_Printf] in *.
  - unfold indexed, distinct in *. cbn [snd log_Printf podcasts
      existingPodcastFeeds podcastTitles]. by rewrite Hp, Hf, Ht.
Qed.

(** X4. [processFeed] keeps, whatever the store answers, two facts about
    the state: every podcast of the store has its feed URL and its slug in
    the maps, and no two podcasts of the store share a feed URL or a slug. *)
Theorem processFeed_keeps_distinct w feed st :
  indexed st -> distinct st ->
  indexed (processFeed w feed st).2 /\ distinct (processFeed w feed st).2.
Proof. apply processFeed_keeps. Qed.

Lemma processFeed_keeps_distinct_witness :
  let feed := sample_feed "News" "https://b.example/feed.xml" [] in
  let st := (processFeedURL
               (serving (sample_feed "News" "https://a.example/feed.xml" []))
               "https://a.example/feed.xml" empty_run).2 in
  distinct (processFeed (serving feed) feed st).2.
Proof.
  cbv zeta.
  refine (proj2 (processFeed_keeps_distinct _ _ _ _ _)).
  - split; vm_compute; repeat constructor.
  - split; vm_compute; apply NoDup_singleton.
Defined.

(** X5. A run as [main] starts it, on a store whose podcasts have distinct
    feed URLs and distinct slugs and with the maps of
    [loadExistingPodcasts], in which the feeds are processed one after
    another: whatever the parser and the store answer to each of them, no
    two podcasts of the store share a feed URL or a slug at the end. *)
Theorem run_keeps_distinct steps ps es id now lg :
  NoDup (Podcast.Feed <$> ps) -> NoDup (Podcast.PodlistUrl <$> ps) ->
  distinct (one_after_another steps
              (mkState ps es id now (loadExistingPodcasts ps).1
                       (loadExistingPodcasts ps).2 lg)).
Proof.
  intros Hf Ht.
  set (st := mkState _ _ _ _ _ _ _).
  assert (indexed st) as Hi.
  { split; apply Forall_forall; intros k Hk;
      by apply (loadExistingPodcasts_index ps k). }
  assert (distinct st) as Hd by done.
  clearbody st. revert st Hi Hd.
  induction steps as [|[w url] steps IH]; intros st Hi Hd; [done|].
  cbn [one_after_another].
  destruct (processFeedURL_keeps w url st Hi Hd). by apply IH.
Qed.

Lemma run_keeps_distinct_witness :
  let news := sample_feed "News" "" [] in
  distinct (one_after_another
              [(serving news, "https://a.example/feed.xml");
               (serving news, "https://b.example/feed.xml")]
              (mkState [] [] 1%N 0%N (loadExistingPodcasts []).1
                       (loadExistingPodcasts []).2 [])).
Proof. cbv zeta. apply run_keeps_distinct; apply NoDup_nil_2. Defined.

(** X6. When the parser fails, [processFeedURL] leaves the two collections
    and the two maps as they were: the run goes on with one more line in the
    log, which names the address and the cause. *)
Theorem processFeedURL_load_error w url st err :
  ParseURLWithContext w url = Err err ->
  processFeedURL w url st =
  (Ok tt,
   mkState (podcasts st) (episodes st) (next_id st) (clock st)
           (existingPodcastFeeds st) (podcastTitles st)
           (log st ++ [LoadError url ("feed error: " +:+ err)])%list).
Proof.
  intros E. unfold processFeedURL, LoadFeed. rewrite E. done.
Qed.

Lemma processFeedURL_load_error_witness :
  podcasts (processFeedURL
              (mkWorld (fun _ => Err "context deadline exceeded")
                       None None None None None None)
              "https://a.example/feed.xml" empty_run).2 = [].
Proof.
  by rewrite (processFeedURL_load_error _ _ _ "context deadline exceeded").
Defined.

(** ** The episodes of a podcast *)

Lemma guid_set_from l :
  forall (m : gmap string bool) g,
    index (fold_left (fun m e => <[Episode.Guid e := true]> m) l m) g = true <->
    index m g = true \/ g ∈ Episode.Guid <$> l.
Proof.
  induction l as [|e l IH]; intros m g; cbn [fold_left fmap list_fmap].
  { rewrite elem_of_nil. tauto. }
  rewrite IH, index_insert, elem_of_cons.
  case_decide; subst; intuition congruence.
Qed.

Lemma guid_set_index l g :
  index (guid_set l) g = true <-> g ∈ Episode.Guid <$> l.
Proof.
  unfold guid_set. rewrite guid_set_from. unfold index at 1.
  rewrite lookup_empty. cbn [default]. intuition congruence.
Qed.

Lemma new_episodes_nil existingEpisodes podcast items :
  (forall item, item ∈ items -> has_ext item = true ->
                index existingEpisodes (gofeed.Item.GUID item) = true) ->
  forall now, new_episodes existingEpisodes podcast now items = [].
Proof.
  induction items as [|i items IH]; intros Hknown now; [done|].
  cbn [new_episodes]. destruct (has_ext i) eqn:E; cbn [andb].
  - rewrite (Hknown i) by (done || by left). cbn [negb].
    apply IH. intros item Hin. apply Hknown. by right.
  - apply IH. intros item Hin. apply Hknown. by right.
Qed.

Lemma new_episodes_guids existingEpisodes podcast items :
  forall now item,
    item ∈ items -> has_ext item = true ->
    index existingEpisodes (gofeed.Item.GUID item) = false ->
    gofeed.Item.GUID item
      ∈ Episode.Guid <$> new_episodes existingEpisodes podcast now items.
Proof.
  induction items as [|i items IH]; intros now item Hin Hext Hidx.
  { by apply elem_of_nil in Hin. }
  cbn [new_episodes]. apply elem_of_cons in Hin as [->|Hin].
  - rewrite Hext, Hidx. cbn [andb negb fmap list_fmap].
    destruct (createEpisode_Guid now i podcast) as (-> & _). by left.
  - destruct (has_ext i && negb (index existingEpisodes (gofeed.Item.GUID i)));
      [cbn [fmap list_fmap]; right|]; by apply IH.
Qed.

Lemma new_episodes_PodcastUrl existingEpisodes podcast items :
  forall now,
    Forall (fun e => Episode.PodcastUrl e = Podcast.PodlistUrl podcast)
           (new_episodes existingEpisodes podcast now items).
Proof.
  intros now.
  eapply Forall_impl; [apply (new_episodes_origin _ _ _ now)|].
  intros e (item & t & _ & _ & _ & ->).
  by destruct (createEpisode_Guid t item podcast) as (_ & _ & ->).
Qed.

Lemma assign_IDs_keys l :
  forall id,
    Episode.Guid <$> assign_IDs id l = Episode.Guid <$> l /\
    Episode.PodcastUrl <$> assign_IDs id l = Episode.PodcastUrl <$> l.
Proof.
  induction l as [|e l IH]; intros id; [done|].
  cbn [assign_IDs fmap list_fmap]. destruct (IH (id + 1)%N) as [-> ->].
  destruct (with_episode_ID_fields id e) as (Hg & _ & Hu & _).
  destruct (Episode.ID e =? NilObjectID)%N; by rewrite ?Hg, ?Hu.
Qed.

Lemma filter_keeps_all {A} (f : A -> bool) (l : list A) :
  Forall (fun a => f a = true) l -> List.filter f l = l.
Proof.
  induction 1 as [|a l Ha _ IH]; [done|]. cbn [List.filter].
  by rewrite Ha, IH.
Qed.

Lemma field_is_refl v : v ≠ "" -> field_is v v = true.
Proof.
  intros Hv. unfold field_is. rewrite String.eqb_refl, andb_true_r.
  apply negb_true_iff. by apply String.eqb_neq.
Qed.

(** The episodes after a [processEpisodes] in which the store has not
    failed. *)
Lemma processEpisodes_success_episodes w feed podcast st :
  Find_err w = None -> All_err w = None -> BulkWrite_err w = None ->
  episodes (processEpisodes w feed podcast st).2 =
  (episodes st ++
   assign_IDs (next_id st)
     (new_episodes
        (guid_set (List.filter
                     (fun e => field_is (Podcast.PodlistUrl podcast)
                                        (Episode.PodcastUrl e))
                     (episodes st)))
        podcast (clock st) (gofeed.Feed.Items feed)))%list.
Proof.
  intros E1 E2 E3. rewrite processEpisodes_eq, E1, E2. cbv zeta.
  destruct (new_episodes _ _ _ _) as [|e created] eqn:E.
  - cbn [length Nat.ltb Nat.leb log_Printf snd episodes tick assign_IDs].
    by rewrite app_nil_r.
  - cbn [length Nat.ltb Nat.leb]. rewrite BulkWrite_eq, E3. done.
Qed.

(** When the store knows the GUID of every item that carries the extension
    block, [processEpisodes] writes nothing and does not call [BulkWrite]. *)
Lemma processEpisodes_known w feed podcast st :
  Find_err w = None -> All_err w = None ->
  (forall item,
      item ∈ gofeed.Feed.Items feed -> has_ext item = true ->
      gofeed.Item.GUID item
        ∈ Episode.Guid <$>
            List.filter (fun e => field_is (Podcast.PodlistUrl podcast)
                                           (Episode.PodcastUrl e))
                        (episodes st)) ->
  processEpisodes w feed podcast st =
  (Ok tt,
   mkState (podcasts st) (episodes st) (next_id st) (clock st)
           (existingPodcastFeeds st) (podcastTitles st)
           (log st ++ [NoNewEpisodes (Podcast.Title podcast)])%list).
Proof.
  intros E1 E2 Hknown. rewrite processEpisodes_eq, E1, E2. cbv zeta.
  rewrite new_episodes_nil.
  - cbn [length Nat.ltb Nat.leb]. by rewrite tick_0.
  - intros item Hin Hext. apply guid_set_index. by apply Hknown.
Qed.

(** After a [processEpisodes] in which the store has not failed, the store
    holds, under the slug of the podcast, the GUID of every item that
    carries the extension block. *)
Lemma processEpisodes_then_known w feed podcast st :
  Podcast.PodlistUrl podcast ≠ "" ->
  Find_err w = None -> All_err w = None -> BulkWrite_err w = None ->
  forall item,
    item ∈ gofeed.Feed.Items feed -> has_ext item = true ->
    gofeed.Item.GUID item
      ∈ Episode.Guid <$>
          List.filter (fun e => field_is (Podcast.PodlistUrl podcast)
                                         (Episode.PodcastUrl e))
                      (episodes (processEpisodes w feed podcast st).2).
Proof.
  intros Hslug E1 E2 E3 item Hin Hext.
  rewrite processEpisodes_success_episodes by done.
  rewrite List.filter_app, fmap_app, elem_of_app.
  set (existing := guid_set _).
  destruct (index existing (gofeed.Item.GUID item)) eqn:Hidx.
  - left. by apply guid_set_index.
  - right. rewrite filter_keeps_all.
    + rewrite (proj1 (assign_IDs_keys _ _)). by apply new_episodes_guids.
    + apply Forall_forall. intros e He.
      assert (Episode.PodcastUrl e = Podcast.PodlistUrl podcast) as ->;
        [|by apply field_is_refl].
      assert (Episode.PodcastUrl e
                ∈ Episode.PodcastUrl <$>
                    assign_IDs (next_id st)
                      (new_episodes existing podcast (clock st)
                                    (gofeed.Feed.Items feed))) as Hu
          by (apply list_elem_of_fmap; eauto).
      rewrite (proj2 (assign_IDs_keys _ _)) in Hu.
      apply list_elem_of_fmap in Hu as (e0 & -> & He0).
      pose proof (new_episodes_PodcastUrl existing podcast
                    (gofeed.Feed.Items feed) (clock st)) as Hall.
      rewrite Forall_forall in Hall. by apply Hall.
Qed.

(** X7. [processEpisodes] a second time, for a podcast with the same
    non-empty slug and the same feed, after a first one in which the store
    has not failed: nothing is written, and no error is returned. *)
Theorem processEpisodes_twice w w' feed podcast podcast' st :
  Podcast.PodlistUrl podcast ≠ "" ->
  Podcast.PodlistUrl podcast' = Podcast.PodlistUrl podcast ->
  Find_err w = None -> All_err w = None -> BulkWrite_err w = None ->
  Find_err w' = None -> All_err w' = None ->
  let st1 := (processEpisodes w feed podcast st).2 in
  (processEpisodes w' feed podcast' st1).1 = Ok tt /\
  episodes (processEpisodes w' feed podcast' st1).2 = episodes st1.
Proof.
  intros Hslug Hsame E1 E2 E3 E1' E2'. cbv zeta.
  rewrite (processEpisodes_known w' feed podcast'); [done|done|done|].
  rewrite Hsame. by apply processEpisodes_then_known.
Qed.

Lemma processEpisodes_twice_witness :
  let feed := sample_feed "My Show" "u"
                [sample_item "One" "g1" true; sample_item "Two" "g2" true] in
  let podcast := createNewPodcast 0%N feed "my-show" in
  let st1 := (processEpisodes (serving feed) feed podcast empty_run).2 in
  length (episodes st1) = 2 /\
  episodes (processEpisodes (serving feed) feed podcast st1).2 = episodes st1.
Proof.
  cbv zeta. split; [vm_compute; reflexivity|].
  apply processEpisodes_twice; (discriminate || reflexivity).
Defined.

(** X8. When every item of the feed that carries the extension block has
    its GUID among the episodes stored under the slug of the podcast,
    [processEpisodes] returns no error and changes nothing but the log, even
    when a [BulkWrite] would fail: writing no episode is no call to the
    store. *)
Theorem processEpisodes_nothing_new w feed podcast st :
  Find_err w = None -> All_err w = None ->
  (forall item,
      item ∈ gofeed.Feed.Items feed -> has_ext item = true ->
      gofeed.Item.GUID item
        ∈ Episode.Guid <$>
            List.filter (fun e => field_is (Podcast.PodlistUrl podcast)
                                           (Episode.PodcastUrl e))
                        (episodes st)) ->
  processEpisodes w feed podcast st =
  (Ok tt,
   mkState (podcasts st) (episodes st) (next_id st) (clock st)
           (existingPodcastFeeds st) (podcastTitles st)
           (log st ++ [NoNewEpisodes (Podcast.Title podcast)])%list).
Proof. apply processEpisodes_known. Qed.

Lemma processEpisodes_nothing_new_witness :
  let feed := sample_feed "My Show" "u" [sample_item "One" "g1" false] in
  let w := mkWorld (fun _ => Ok feed) None None None None None
                   (Some (0, "write concern error")) in
  (processEpisodes w feed (createNewPodcast 0%N feed "my-show") empty_run).1
  = Ok tt.
Proof.
  cbv zeta. rewrite processEpisodes_nothing_new; [done..|].
  intros item ->%list_elem_of_singleton. discriminate.
Defined.

(** ** The episodes that [processFeed] writes *)

Lemma FindOne_Ok w feedLink st p st' :
  FindOne w feedLink st = (Ok p, st') ->
  FindOne_err w = None /\
  List.find (fun p => field_is feedLink (Podcast.Feed p)) (podcasts st) = Some p.
Proof.
  unfold FindOne. destruct (FindOne_err w); [done|].
  destruct (List.find _ _); [|done]. by intros [= -> _].
Qed.

Lemma processFeed_added w feed st :
  exists added,
    episodes (processFeed w feed st).2 = (episodes st ++ added)%list /\
    Forall (fun e => exists podcast item t,
                item ∈ gofeed.Feed.Items feed /\
                with_episode_ID NilObjectID e = createEpisode t item podcast /\
                (index (existingPodcastFeeds st) (gofeed.Feed.FeedLink feed) = true ->
                 List.find (fun p => field_is (gofeed.Feed.FeedLink feed)
                                              (Podcast.Feed p))
                           (podcasts st) = Some podcast))
           added.
Proof.
  destruct (index (existingPodcastFeeds st) (gofeed.Feed.FeedLink feed)) eqn:Hidx.
  - rewrite processFeed_update_eq by done. cbv zeta.
    set (st1 := (log_Printf _ st).2).
    destruct (FindOne w _ _) as [[podcast|e] st2] eqn:EF.
    + pose proof (FindOne_Ok _ _ _ _ _ EF) as [_ Hfind].
      apply (f_equal snd) in EF. rewrite FindOne_state in EF.
      cbn [snd] in EF. subst st2. rewrite Errorf_state.
      destruct (processEpisodes_added w feed podcast
                  (updatePodcast w podcast feed st1).2) as (added & -> & H).
      destruct (updatePodcast_immutable w podcast feed st1) as (_ & -> & _).
      exists added. split; [done|]. eapply Forall_impl; [exact H|].
      intros e (item & t & ? & _ & _ & ?). by exists podcast, item, t.
    + apply (f_equal snd) in EF. rewrite FindOne_state in EF.
      cbn [snd] in EF. subst st2. exists []. by rewrite app_nil_r.
  - rewrite processFeed_create_eq by done. cbv zeta.
    destruct (InsertOne_err w) eqn:EI; [exists []; by rewrite app_nil_r|].
    rewrite Errorf_state.
    set (podcast := createNewPodcast _ _ _). set (st3 := (set_podcastTitles _ _).2).
    destruct (processEpisodes_added w feed podcast st3) as (added & -> & H).
    assert (episodes st3 = episodes st) as ->
        by (subst st3; unfold InsertOne; by rewrite EI).
    exists added. split; [done|]. eapply Forall_impl; [exact H|].
    intros e (item & t & ? & _ & _ & ?). by exists podcast, item, t.
Qed.

Lemma createEpisode_podcast t item podcast :
  Episode.PodcastId (createEpisode t item podcast) = NilObjectID /\
  Episode.PodcastUrl (createEpisode t item podcast) = Podcast.PodlistUrl podcast /\
  Episode.PodcastTitle (createEpisode t item podcast) = Podcast.Title podcast /\
  Episode.PodcastImage (createEpisode t item podcast) = Podcast.Image podcast.
Proof. unfold createEpisode. by repeat case_match. Qed.

Lemma with_episode_ID_podcast id e :
  Episode.PodcastId (with_episode_ID id e) = Episode.PodcastId e /\
  Episode.PodcastUrl (with_episode_ID id e) = Episode.PodcastUrl e /\
  Episode.PodcastTitle (with_episode_ID id e) = Episode.PodcastTitle e /\
  Episode.PodcastImage (with_episode_ID id e) = Episode.PodcastImage e.
Proof. by destruct e. Qed.

(** X9. When the feed URL is known, the episodes that [processFeed] writes
    carry the slug, the title and the image of the podcast record as the
    store held it before this call: [updatePodcast] changes the store, not
    the record that [createEpisode] reads. *)
Theorem processFeed_update_episode_fields w feed st :
  index (existingPodcastFeeds st) (gofeed.Feed.FeedLink feed) = true ->
  exists added,
    episodes (processFeed w feed st).2 = (episodes st ++ added)%list /\
    Forall (fun e => exists p,
                List.find (fun p => field_is (gofeed.Feed.FeedLink feed)
                                             (Podcast.Feed p))
                          (podcasts st) = Some p /\
                Episode.PodcastUrl e = Podcast.PodlistUrl p /\
                Episode.PodcastTitle e = Podcast.Title p /\
                Episode.PodcastImage e = Podcast.Image p)
           added.
Proof.
  intros Hidx. destruct (processFeed_added w feed st) as (added & E & H).
  exists added. split; [done|]. eapply Forall_impl; [exact H|].
  intros e (p & item & t & _ & Hc & Hfind). exists p. split; [by apply Hfind|].
  destruct (with_episode_ID_podcast NilObjectID e) as (_ & <- & <- & <-).
  rewrite Hc. by destruct (createEpisode_podcast t item p) as (_ & -> & -> & ->).
Qed.

(** X10. No episode that [processFeed] writes has its [PodcastId] set: an
    episode is tied to its podcast by the slug of the podcast only. *)
Theorem processFeed_never_sets_PodcastId w feed st :
  exists added,
    episodes (processFeed w feed st).2 = (episodes st ++ added)%list /\
    Forall (fun e => Episode.PodcastId e = NilObjectID) added.
Proof.
  destruct (processFeed_added w feed st) as (added & E & H).
  exists added. split; [done|]. eapply Forall_impl; [exact H|].
  intros e (p & item & t & _ & Hc & _).
  destruct (with_episode_ID_podcast NilObjectID e) as (<- & _).
  rewrite Hc. by destruct (createEpisode_podcast t item p) as (-> & _).
Qed.

Lemma processFeed_update_episode_fields_witness :
  let renamed := sample_feed "Renamed Show" "https://a.example/feed.xml"
                             [sample_item "One" "g1" true] in
  let st := (processFeedURL
               (serving (sample_feed "My Show" "https://a.example/feed.xml" []))
               "https://a.example/feed.xml" empty_run).2 in
  exists added,
    episodes (processFeed (serving renamed) renamed st).2
    = (episodes st ++ added)%list /\
    Forall (fun e => exists p,
                List.find (fun p => field_is "https://a.example/feed.xml"
                                             (Podcast.Feed p))
                          (podcasts st) = Some p /\
                Episode.PodcastUrl e = Podcast.PodlistUrl p /\
                Episode.PodcastTitle e = Podcast.Title p /\
                Episode.PodcastImage e = Podcast.Image p)
           added.
Proof.
  cbv zeta.
  apply (processFeed_update_episode_fields
           (serving (sample_feed "Renamed Show" "https://a.example/feed.xml"
                                 [sample_item "One" "g1" true]))
           (sample_feed "Renamed Show" "https://a.example/feed.xml"
                        [sample_item "One" "g1" true])).
  vm_compute. reflexivity.
Defined.

(** ** What an update writes *)

Lemma apply_update_set now feed p :
  bson.apply_set (update_set now feed) p = refreshed now feed p.
Proof.
  destruct p, feed as [? ? ? ? ? ? [[]|] ?]; vm_compute; reflexivity.
Qed.

Lemma fmap_id_on {A} (g : A -> A) (l : list A) :
  Forall (fun a => g a = a) l -> g <$> l = l.
Proof.
  induction 1 as [|a l Ha _ IH]; [done|]. cbn [fmap list_fmap].
  rewrite Ha. f_equal. apply IH.
Qed.

Lemma update_first_unique id f l :
  NoDup (Podcast.ID <$> l) ->
  update_first id f l
  = (fun q => if (Podcast.ID q =? id)%N then f q else q) <$> l.
Proof.
  induction l as [|p l IH]; [done|]. cbn [fmap list_fmap update_first].
  intros [Hnotin Hnd]%NoDup_cons.
  destruct (N.eqb_spec (Podcast.ID p) id) as [<-|Hne].
  - f_equal. symmetry. apply fmap_id_on. apply Forall_forall. intros q Hq.
    destruct (N.eqb_spec (Podcast.ID q) (Podcast.ID p)) as [E|]; [|done].
    destruct Hnotin. rewrite <- E. apply list_elem_of_fmap. eauto.
  - f_equal. by apply IH.
Qed.

(** X11. When [UpdateOne] succeeds, on a store whose identifiers are
    distinct, [updatePodcast] changes the record with the identifier of the
    podcast and no other: its categories, link and description become those
    of the feed and its time stamp the time of the call; its subtitle, author
    and image become those of the extension block when the feed carries
    one and stay as they are when it carries none; identifier, title, owner,
    feed URL and slug stay as they are. *)
Theorem updatePodcast_refreshes w podcast feed st :
  UpdateOne_err w = None ->
  NoDup (Podcast.ID <$> podcasts st) ->
  podcasts (updatePodcast w podcast feed st).2
  = (fun q => if (Podcast.ID q =? Podcast.ID podcast)%N
              then refreshed (clock st) feed q else q) <$> podcasts st.
Proof.
  intros E Hnd. rewrite updatePodcast_eq, E. cbn [snd podcasts].
  rewrite update_first_unique by done.
  apply list_fmap_ext. intros _ q _.
  destruct (Podcast.ID q =? Podcast.ID podcast)%N; [|done].
  apply apply_update_set.
Qed.

Lemma updatePodcast_refreshes_witness :
  let st := (processFeedURL
               (serving (sample_feed "My Show" "https://a.example/feed.xml" []))
               "https://a.example/feed.xml" empty_run).2 in
  let feed := gofeed.Feed.mk "Renamed Show" "All about it" "https://a.example"
                             "https://a.example/feed.xml" ["Tech"] None None [] in
  (fun p => (Podcast.Title p, Podcast.Description p, Podcast.Categories p))
    <$> podcasts (updatePodcast (serving feed)
                    (with_ID 1%N (createNewPodcast 0%N feed "my-show")) feed st).2
  = [("My Show", "All about it", ["Tech"])].
Proof.
  cbv zeta. rewrite updatePodcast_refreshes.
  - vm_compute. reflexivity.
  - reflexivity.
  - vm_compute. apply NoDup_singleton.
Defined.

(** X12. A failed [UpdateOne] does not stop [processFeed]: the failure goes
    to the log with the title of the stored podcast, the podcasts stay as
    they are, and the result is the one of [processEpisodes]. *)
Theorem processFeed_update_failure_logged w feed st p err :
  index (existingPodcastFeeds st) (gofeed.Feed.FeedLink feed) = true ->
  FindOne_err w = None ->
  List.find (fun p => field_is (gofeed.Feed.FeedLink feed) (Podcast.Feed p))
            (podcasts st) = Some p ->
  UpdateOne_err w = Some err ->
  let pTitleUrl := GetTitleUrl (gofeed.Feed.Title feed) (podcastTitles st) in
  let st1 := mkState (podcasts st) (episodes st) (next_id st) (clock st + 1)%N
                     (existingPodcastFeeds st) (podcastTitles st)
                     (log st ++ [UpdatingPodcast pTitleUrl]
                          ++ [UpdateError (Podcast.Title p) err])%list in
  processFeed w feed st
  = Errorf "error processing episodes: " (processEpisodes w feed p) st1 /\
  podcasts (processFeed w feed st).2 = podcasts st.
Proof.
  intros Hidx EF Hfind EU. cbv zeta.
  assert (processFeed w feed st
          = Errorf "error processing episodes: " (processEpisodes w feed p)
              (mkState (podcasts st) (episodes st) (next_id st) (clock st + 1)%N
                 (existingPodcastFeeds st) (podcastTitles st)
                 (log st ++ [UpdatingPodcast
                               (GetTitleUrl (gofeed.Feed.Title feed) (podcastTitles st))]
                      ++ [UpdateError (Podcast.Title p) err])%list)) as ->.
  { rewrite processFeed_update_eq by done. cbv zeta.
    unfold FindOne. rewrite EF. cbn [log_Printf snd podcasts]. rewrite Hfind.
    rewrite updatePodcast_eq, EU. cbn [snd podcasts episodes next_id clock
      existingPodcastFeeds podcastTitles log]. by rewrite <- app_assoc. }
  split; [done|]. rewrite Errorf_state.
  by destruct (processEpisodes_frame w feed p
                 (mkState (podcasts st) (episodes st) (next_id st) (clock st + 1)%N
                    (existingPodcastFeeds st) (podcastTitles st)
                    (log st ++ [UpdatingPodcast
                                  (GetTitleUrl (gofeed.Feed.Title feed) (podcastTitles st))]
                         ++ [UpdateError (Podcast.Title p) err])%list))
    as (-> & _).
Qed.

Lemma processFeed_update_failure_logged_witness :
  let feed := sample_feed "My Show" "https://a.example/feed.xml" [] in
  let st := (processFeedURL (serving feed) "https://a.example/feed.xml" empty_run).2 in
  let w := mkWorld (fun _ => Ok feed) None (Some "connection reset")
                   None None None None in
  podcasts (processFeed w feed st).2 = podcasts st.
Proof.
  cbv zeta.
  refine (proj2 (processFeed_update_failure_logged
                   _ _ _
                   (with_ID 1%N
                      (createNewPodcast
                         0%N (sample_feed "My Show" "https://a.example/feed.xml" [])
                         "my-show"))
                   "connection reset" _ _ _ _));
    vm_compute; reflexivity.
Defined.

(** ** A podcast once created *)

Lemma find_app_none {A} (f : A -> bool) (l l' : list A) :
  Forall (fun a => f a = false) l -> List.find f (l ++ l') = List.find f l'.
Proof.
  induction 1 as [|a l Ha _ IH]; [done|]. cbn [app List.find]. by rewrite Ha.
Qed.

Lemma field_is_eq v field : field_is v field = true -> field = v.
Proof.
  unfold field_is. intros [_ H]%andb_true_iff. by apply String.eqb_eq.
Qed.

Lemma indexed_no_match (m : gmap string bool) k (l : list Podcast.t) :
  Forall (fun k' => index m k' = true) (Podcast.Feed <$> l) ->
  index m k = false ->
  Forall (fun p => field_is k (Podcast.Feed p) = false) l.
Proof.
  intros H Hk. apply Forall_fmap in H. eapply Forall_impl; [exact H|].
  intros p Hp. cbn in Hp. destruct (field_is k (Podcast.Feed p)) eqn:E; [|done].
  apply field_is_eq in E. congruence.
Qed.

Lemma processFeed_created_found w w' feed st :
  indexed st ->
  index (existingPodcastFeeds st) (gofeed.Feed.FeedLink feed) = false ->
  gofeed.Feed.FeedLink feed ≠ "" ->
  InsertOne_err w = None -> FindOne_err w' = None ->
  forall st',
    podcasts st' = podcasts (processFeed w feed st).2 ->
    FindOne w' (gofeed.Feed.FeedLink feed) st'
    = (Ok (with_ID (next_id st)
                   (createNewPodcast (clock st) feed
                      (GetTitleUrl (gofeed.Feed.Title feed) (podcastTitles st)))),
       st').
Proof.
  intros [Hif _] Hidx Hlink EI EF st' Hst'.
  pose proof (processFeed_create_frame w feed st Hidx) as H. cbv zeta in H.
  rewrite EI in H. destruct H as (Hp & _).
  unfold FindOne. rewrite EF, Hst', Hp.
  rewrite find_app_none by (by eapply indexed_no_match).
  cbn [List.find].
  destruct (with_ID_fields (next_id st)
              (createNewPodcast (clock st) feed
                 (GetTitleUrl (gofeed.Feed.Title feed) (podcastTitles st))))
    as (-> & _).
  destruct (createNewPodcast_keys (clock st) feed
              (GetTitleUrl (gofeed.Feed.Title feed) (podcastTitles st)))
    as (-> & _).
  by rewrite field_is_refl.
Qed.

(** X13. A podcast that [processFeed] has created is found again: when the
    maps hold the feed URLs of the store, after the creation of a podcast
    for a feed with a non-empty feed URL, [FindOne] by that feed URL returns
    the new record, with the identifier that the store gave it. *)
Theorem processFeed_create_then_FindOne w w' feed st :
  indexed st ->
  index (existingPodcastFeeds st) (gofeed.Feed.FeedLink feed) = false ->
  gofeed.Feed.FeedLink feed ≠ "" ->
  InsertOne_err w = None -> FindOne_err w' = None ->
  (FindOne w' (gofeed.Feed.FeedLink feed) (processFeed w feed st).2).1
  = Ok (with_ID (next_id st)
                (createNewPodcast (clock st) feed
                   (GetTitleUrl (gofeed.Feed.Title feed) (podcastTitles st)))).
Proof.
  intros Hi Hidx Hlink EI EF.
  by rewrite (processFeed_created_found w w' feed st Hi Hidx Hlink EI EF).
Qed.

Lemma processFeed_create_then_FindOne_witness :
  let feed := sample_feed "My Show" "https://a.example/feed.xml" [] in
  (FindOne (serving feed) "https://a.example/feed.xml"
           (processFeed (serving feed) feed empty_run).2).1
  = Ok (with_ID 1%N (createNewPodcast 0%N feed "my-show")).
Proof.
  cbv zeta.
  etrans;
    [apply (processFeed_create_then_FindOne
              (serving (sample_feed "My Show" "https://a.example/feed.xml" []))
              (serving (sample_feed "My Show" "https://a.example/feed.xml" []))
              (sample_feed "My Show" "https://a.example/feed.xml" [])
              empty_run)|].
  - split; constructor.
  - reflexivity.
  - discriminate.
  - reflexivity.
  - reflexivity.
  - vm_compute. reflexivity.
Defined.

(** X14. The same feed processed twice. After a [processFeed] that has
    created the podcast and in which the store has not failed, a second
    [processFeed] of the same feed, in which the store can be read, returns
    no error, writes no episode and adds no podcast, provided that the feed
    URL and the slug are not empty and that the maps hold the feed URLs of
    the store. *)
Theorem processFeed_twice w w' feed st :
  indexed st ->
  index (existingPodcastFeeds st) (gofeed.Feed.FeedLink feed) = false ->
  gofeed.Feed.FeedLink feed ≠ "" ->
  GetTitleUrl (gofeed.Feed.Title feed) (podcastTitles st) ≠ "" ->
  InsertOne_err w = None -> Find_err w = None -> All_err w = None ->
  BulkWrite_err w = None ->
  FindOne_err w' = None -> Find_err w' = None -> All_err w' = None ->
  let st1 := (processFeed w feed st).2 in
  (processFeed w' feed st1).1 = Ok tt /\
  episodes (processFeed w' feed st1).2 = episodes st1 /\
  length (podcasts (processFeed w' feed st1).2) = length (podcasts st1).
Proof.
  intros Hi Hidx Hlink Hslug EI E1 E2 E3 EF' E1' E2'. cbv zeta.
  set (slug := GetTitleUrl (gofeed.Feed.Title feed) (podcastTitles st)) in *.
  set (p0 := createNewPodcast (clock st) feed slug).
  set (st1 := (processFeed w feed st).2).
  assert (index (existingPodcastFeeds st1) (gofeed.Feed.FeedLink feed) = true)
    as Hidx1.
  { pose proof (processFeed_create_frame w feed st Hidx) as H. cbv zeta in H.
    rewrite EI in H. destruct H as (_ & H & _). subst st1. rewrite H.
    rewrite index_insert. by rewrite decide_True. }
  assert (length (podcasts (processFeed w' feed st1).2) = length (podcasts st1))
    as Hlen.
  { destruct (processFeed_update_frame w' feed st1 Hidx1) as (H & _).
    apply (f_equal length) in H. by rewrite !length_fmap in H. }
  rewrite processFeed_update_eq in * by done. cbv zeta in *.
  set (st1L := (log_Printf _ st1).2) in *.
  rewrite (processFeed_created_found w w' feed st Hi Hidx Hlink EI EF' st1L) in *
    by done.
  fold slug in Hlen |- *. fold p0 in Hlen |- *.
  set (stU := (updatePodcast w' (with_ID (next_id st) p0) feed st1L).2) in *.
  assert (episodes stU = episodes st1) as HeU
      by (subst stU; by destruct (updatePodcast_immutable w'
                                    (with_ID (next_id st) p0) feed st1L)
                        as (_ & -> & _)).
  assert (Podcast.PodlistUrl p0 = slug) as Hp0
      by apply (proj2 (createNewPodcast_keys (clock st) feed slug)).
  assert (Podcast.PodlistUrl (with_ID (next_id st) p0) = Podcast.PodlistUrl p0)
    as Hp0' by apply with_ID_fields.
  assert (forall item,
             item ∈ gofeed.Feed.Items feed -> has_ext item = true ->
             gofeed.Item.GUID item
               ∈ Episode.Guid <$>
                   List.filter
                     (fun e => field_is
                                 (Podcast.PodlistUrl (with_ID (next_id st) p0))
                                 (Episode.PodcastUrl e))
                     (episodes stU)) as Hknown.
  { intros item Hin Hext. rewrite HeU, Hp0'. subst st1.
    rewrite processFeed_create_eq by done. cbv zeta. rewrite EI, Errorf_state.
    fold slug. fold p0. apply processEpisodes_then_known; try done.
    by rewrite Hp0. }
  split; [|split; [|exact Hlen]]; unfold Errorf;
    by rewrite (processEpisodes_known w' feed (with_ID (next_id st) p0) stU).
Qed.

Lemma processFeed_twice_witness :
  let feed := sample_feed "My Show" "https://a.example/feed.xml"
                [sample_item "One" "g1" true; sample_item "Two" "g2" true] in
  let st1 := (processFeed (serving feed) feed empty_run).2 in
  length (episodes st1) = 2 /\
  episodes (processFeed (serving feed) feed st1).2 = episodes st1.
Proof.
  cbv zeta. split; [vm_compute; reflexivity|].
  refine (proj1 (proj2 (processFeed_twice _ _ _ _ _ _ _ _ _ _ _ _ _ _ _))).
  - split; constructor.
  - reflexivity.
  - discriminate.
  - vm_compute. discriminate.
  - reflexivity.
  - reflexivity.
  - reflexivity.
  - reflexivity.
  - reflexivity.
  - reflexivity.
  - reflexivity.
Defined.

(** ** More on the slug generator *)

Lemma candidate_slug_bytes t n :
  all_bytes is_slug_byte t = true -> all_bytes is_slug_byte (candidate t n) = true.
Proof.
  intros Ht. induction n as [|n IH]; [done|]. cbn [candidate].
  by rewrite all_bytes_app, IH.
Qed.

(** X15. Every slug is safe in a URL as it is: the result of [TitleUrl], and
    the result of [GetTitleUrl] for any map, consists of the bytes [a-z],
    [0-9] and the hyphen only, never has two hyphens in a row before the
    appended x, and is left unchanged by [url.PathEscape]. *)
Theorem slugs_are_plain title (otherPodcasts : gmap string bool) :
  all_bytes is_slug_byte (TitleUrl title) = true /\
  no_double_hyphen (TitleUrl title) = true /\
  all_bytes is_slug_byte (GetTitleUrl title otherPodcasts) = true /\
  url.PathEscape (GetTitleUrl title otherPodcasts) = GetTitleUrl title otherPodcasts.
Proof.
  split; [apply TitleUrl_slug_bytes|]. split; [apply TitleUrl_no_double|].
  assert (all_bytes is_slug_byte (GetTitleUrl title otherPodcasts) = true) as H.
  { destruct (GetTitleUrl_least title otherPodcasts) as (n & _ & -> & _).
    apply candidate_slug_bytes, TitleUrl_slug_bytes. }
  split; [done|]. by apply PathEscape_id.
Qed.

(** X16. [GetTitleUrl] appends at most as many x as the map has keys, and a
    map that holds more never gives a shorter result. *)
Theorem GetTitleUrl_bounded title (m m' : gmap string bool) :
  (exists n, GetTitleUrl title m = candidate (TitleUrl title) n /\ n <= size m) /\
  String.length (GetTitleUrl title m) <= String.length (TitleUrl title) + size m /\
  ((forall k, index m k = true -> index m' k = true) ->
   String.length (GetTitleUrl title m) <= String.length (GetTitleUrl title m')).
Proof.
  destruct (GetTitleUrl_least title m) as (n & Hloop & Hget & Hn & Hlt).
  assert (n <= size m) as Hsize.
  { apply GetTitleUrl_loop_Some in Hloop as (n' & Hn' & E & _).
    apply candidate_inj in E. lia. }
  split; [by exists n|]. rewrite Hget, candidate_length.
  split; [lia|]. intros Hsub.
  destruct (GetTitleUrl_least title m') as (n' & _ & -> & Hn'' & _).
  rewrite candidate_length.
  destruct (Nat.le_gt_cases n n') as [|Hgt]; [lia|].
  specialize (Hlt _ Hgt). apply Hsub in Hlt. congruence.
Qed.

Lemma GetTitleUrl_bounded_witness :
  String.length (GetTitleUrl "News" ∅)
  <= String.length (GetTitleUrl "News" {["news" := true]}).
Proof.
  apply (proj2 (proj2 (GetTitleUrl_bounded "News" ∅ {["news" := true]}))).
  intros k. unfold index at 1. by rewrite lookup_empty.
Defined.

Lemma ToLower_ascii s :
  all_bytes is_ascii s = true -> strings.ToLower s = map_bytes lower_byte s.
Proof.
  unfold strings.ToLower, strings.Map.
  induction s as [|c s IH]; [done|].
  cbn [all_bytes]. intros [Hc Hs]%andb_true_iff.
  cbn [utf8.runes map_bytes]. unfold is_ascii in Hc. rewrite Hc.
  cbn [map utf8.WriteRunes]. rewrite IH by done.
  apply N.ltb_lt in Hc. unfold utf8.RuneSelf in Hc.
  unfold lower_byte, is_upper.
  destruct (utf8.between 0x41 0x5A (N_of_ascii c)) eqn:Hup.
  - unfold unicode.ToLower. rewrite Hup.
    unfold utf8.between in Hup. apply andb_true_iff in Hup as [H1 H2].
    apply N.leb_le in H1, H2. unfold utf8.EncodeRune.
    replace (N_of_ascii c + 32 <=? 0x7F)%N with true
      by (symmetry; apply N.leb_le; lia).
    done.
  - rewrite unicode_ToLower_ascii by done. unfold utf8.EncodeRune.
    replace (N_of_ascii c <=? 0x7F)%N with true
      by (symmetry; apply N.leb_le; lia).
    unfold utf8.byte. by rewrite ascii_N_embedding.
Qed.

Lemma lower_byte_ascii c : is_ascii c = true -> is_ascii (lower_byte c) = true.
Proof.
  intros Hc. unfold lower_byte, is_upper.
  destruct (utf8.between 0x41 0x5A (N_of_ascii c)) eqn:Hup; [|done].
  unfold utf8.between in Hup. apply andb_true_iff in Hup as [H1 H2].
  apply N.leb_le in H1, H2. unfold is_ascii, utf8.byte, utf8.RuneSelf.
  rewrite N_ascii_embedding by lia. apply N.ltb_lt. lia.
Qed.

Lemma map_bytes_all (p : ascii -> bool) f s :
  (forall c, p c = true -> p (f c) = true) ->
  all_bytes p s = true -> all_bytes p (map_bytes f s) = true.
Proof.
  intros Hf. induction s as [|c s IH]; [done|]. cbn [all_bytes map_bytes].
  intros [Hc Hs]%andb_true_iff. by rewrite (Hf _ Hc), IH.
Qed.

(** X17. On an ASCII title [TitleUrl] works byte by byte: the capital
    letters are put in lower case, every byte that is then neither a letter,
    a digit nor a space is deleted, and each run of spaces that is left
    becomes one hyphen: spaces at the ends are not trimmed, and words
    separated by punctuation alone are joined. *)
Theorem TitleUrl_ascii title :
  all_bytes is_ascii title = true ->
  TitleUrl title
  = spaces_to_hyphen (strip_outside (map_bytes lower_byte title)).
Proof.
  intros H. rewrite TitleUrl_four_steps, ToLower_ascii by done.
  rewrite transliterate_ascii_id; [done|].
  apply map_bytes_all; [apply lower_byte_ascii|done].
Qed.

Lemma TitleUrl_ascii_witness :
  TitleUrl " Rock&Roll  FM " = "-rockroll-fm-".
Proof.
  rewrite TitleUrl_ascii by reflexivity. vm_compute. reflexivity.
Defined.

(** ** Failures of the store while reading *)

(** X18. When the feed URL is in the map but the podcast cannot be read
    from the store (the call fails, or the store holds no record with that
    feed URL), [processFeed] returns that error and writes nothing: no
    podcast is created in its place and the episodes are not looked at. *)
Theorem processFeed_known_but_unreadable w feed st err :
  index (existingPodcastFeeds st) (gofeed.Feed.FeedLink feed) = true ->
  (FindOne w (gofeed.Feed.FeedLink feed) st).1 = Err err ->
  processFeed w feed st =
  (Err ("error fetching existing podcast: " +:+ err),
   mkState (podcasts st) (episodes st) (next_id st) (clock st)
           (existingPodcastFeeds st) (podcastTitles st)
           (log st ++ [UpdatingPodcast
                         (GetTitleUrl (gofeed.Feed.Title feed) (podcastTitles st))])%list).
Proof.
  intros Hidx HF. rewrite processFeed_update_eq by done. cbv zeta.
  unfold FindOne in *. cbn [log_Printf snd podcasts].
  destruct (FindOne_err w); [by injection HF as ->|].
  destruct (List.find _ _); [done|]. by injection HF as <-.
Qed.

Lemma processFeed_known_but_unreadable_witness :
  let feed := sample_feed "My Show" "https://a.example/feed.xml"
                          [sample_item "One" "g1" true] in
  (processFeed (serving feed) feed
               (mkState [] [] 1%N 0%N {["https://a.example/feed.xml" := true]} ∅ [])).1
  = Err "error fetching existing podcast: mongo: no documents in result".
Proof.
  cbv zeta.
  by rewrite (processFeed_known_but_unreadable
                _ _ _ "mongo: no documents in result").
Defined.

(** X19. A new podcast whose episodes cannot be read from the store stays
    created: when the insertion of the podcast succeeds and the reading of
    its episodes fails, [processFeed] returns the error under both prefixes,
    no episode is written, and the podcast is in the store, with the
    identifier that the store gave it. *)
Theorem processFeed_episodes_unreadable w feed st err :
  index (existingPodcastFeeds st) (gofeed.Feed.FeedLink feed) = false ->
  InsertOne_err w = None -> Find_err w = Some err ->
  let pTitleUrl := GetTitleUrl (gofeed.Feed.Title feed) (podcastTitles st) in
  (processFeed w feed st).1
  = Err ("error processing episodes: error fetching existing episodes: " +:+ err) /\
  podcasts (processFeed w feed st).2
  = (podcasts st ++ [with_ID (next_id st)
                             (createNewPodcast (clock st) feed pTitleUrl)])%list /\
  episodes (processFeed w feed st).2 = episodes st.
Proof.
  intros Hidx EI EF. cbv zeta.
  pose proof (processFeed_create_frame w feed st Hidx) as H. cbv zeta in H.
  rewrite EI in H. destruct H as (-> & _).
  rewrite processFeed_create_eq by done. cbv zeta. rewrite EI.
  unfold Errorf. rewrite processEpisodes_eq, EF.
  cbn [fst snd]. unfold InsertOne. rewrite EI. done.
Qed.

Lemma processFeed_episodes_unreadable_witness :
  let feed := sample_feed "My Show" "https://a.example/feed.xml"
                          [sample_item "One" "g1" true] in
  let w := mkWorld (fun _ => Ok feed) None None None
                   (Some "server selection timeout") None None in
  length (podcasts (processFeed w feed empty_run).2) = 1 /\
  episodes (processFeed w feed empty_run).2 = [].
Proof.
  cbv zeta.
  edestruct (processFeed_episodes_unreadable
               (mkWorld (fun _ => Ok (sample_feed "My Show" "https://a.example/feed.xml"
                                                  [sample_item "One" "g1" true]))
                        None None None (Some "server selection timeout") None None)
               (sample_feed "My Show" "https://a.example/feed.xml"
                            [sample_item "One" "g1" true])
               empty_run "server selection timeout")
    as (_ & Hp & He); [reflexivity..|].
  by rewrite Hp, He.
Defined.
